(** * Numerical integration of functions: the quadrature rules of
    [docs/08/notes.ipynb]

    The notebook defines four rules, [RiemannSum], [trapezoidal], [simpson]
    and [bode].  They are embedded here over exact real arithmetic: a Python
    float is a real number or NaN, a Python int is an integer of [Z], and a
    raised exception is a value of the result type.  The integrand is a pure
    total function on the reals, applied pointwise to an array.  The
    notebook's own integrands [f] and [g], its inline Riemann sums and the
    error lists of its convergence experiments are embedded in the same
    way. *)

From Stdlib Require Import Reals Lra Lia ZArith List String Ascii.
Import ListNotations.

Open Scope R_scope.

(** ** Python values, exceptions and the operations the rules use *)

(** The exceptions that the rules can raise. *)
Inductive exn : Set :=
| ValueError
| ZeroDivisionError
| IndexError.

(** A call returns a value or raises. *)
Inductive result (A : Type) : Type :=
| Ok (v : A)
| Raise (e : exn).

Arguments Ok {A} v.
Arguments Raise {A} e.

Definition bind {A B : Type} (m : result A) (k : A -> result B) : result B :=
  match m with
  | Ok v => k v
  | Raise e => Raise e
  end.

Notation "x <- m ;; k" := (bind m (fun x => k))
  (at level 61, m at next level, right associativity).
Notation "' p <- m ;; k" := (bind m (fun x => let p := x in k))
  (at level 61, p pattern, m at next level, right associativity).

(** [fails r]: the call ended in an exception. *)
Definition fails {A : Type} (r : result A) : Prop :=
  match r with
  | Ok _ => False
  | Raise _ => True
  end.

(** A float over exact arithmetic: a real number, or NaN (the step that
    [np.linspace] returns when it is undefined). *)
Inductive pyfloat : Type :=
| Fin (x : R)
| NaN.

Definition fadd (x y : pyfloat) : pyfloat :=
  match x, y with
  | Fin u, Fin v => Fin (u + v)
  | _, _ => NaN
  end.

Definition fmul (x y : pyfloat) : pyfloat :=
  match x, y with
  | Fin u, Fin v => Fin (u * v)
  | _, _ => NaN
  end.

(** Division of a float by a non-zero numeric literal. *)
Definition fdiv (x : pyfloat) (c : R) : pyfloat :=
  match x with
  | Fin u => Fin (u / c)
  | NaN => NaN
  end.

(** [x / n] on Python numbers, [n] an int: raises on [n = 0]. *)
Definition truediv (x : R) (n : Z) : result R :=
  if (n =? 0)%Z then Raise ZeroDivisionError else Ok (x / IZR n).

(** [range(n)]: [0, 1, ..., n-1], empty when [n <= 0]. *)
Definition range (n : Z) : list Z :=
  map Z.of_nat (seq 0 (Z.to_nat n)).

(** [t[0]] on a string. *)
Definition str_head (t : string) : result ascii :=
  match t with
  | EmptyString => Raise IndexError
  | String c _ => Ok c
  end.

(** [X[k]] on a sequence: a negative index counts from the end, an index out
    of range raises. *)
Definition getitem (X : list R) (k : Z) : result R :=
  let n := Z.of_nat (List.length X) in
  if ((0 <=? k) && (k <? n))%Z%bool then Ok (nth (Z.to_nat k) X 0)
  else if ((- n <=? k) && (k <? 0))%Z%bool then Ok (nth (Z.to_nat (n + k)) X 0)
  else Raise IndexError.

(** A [for] loop over a list that threads the accumulator and stops at the
    first exception. *)
Fixpoint for_each {A S : Type} (l : list A) (body : A -> S -> result S)
    (s : S) : result S :=
  match l with
  | [] => Ok s
  | x :: l' => s' <- body x s ;; for_each l' body s'
  end.

Module Np.

(** [np.sum] of a one-dimensional array. *)
Definition sum (l : list R) : R := fold_left Rplus l 0.

(** Elementwise [u + v] of two arrays of equal length. *)
Definition add (u v : list R) : list R :=
  map (fun p => fst p + snd p) (combine u v).

(** [y[-1] = v] on a non-empty array. *)
Definition set_last (y : list R) (v : R) : list R :=
  match y with
  | [] => []
  | _ :: _ => removelast y ++ [v]
  end.

(** [np.linspace(start, stop, num, retstep=True)] with the default
    [endpoint=True]: a negative [num] is refused; the step is
    [(stop - start) / (num - 1)] and is NaN when [num <= 1]; the samples
    are [i * step + start] with the last one overwritten by [stop]. *)
Definition linspace (start stop : R) (num : Z) : result (list R * pyfloat) :=
  if (num <? 0)%Z then Raise ValueError
  else
    let div := (num - 1)%Z in
    let delta := stop - start in
    let y := map IZR (range num) in
    let '(y, step) :=
      if (0 <? div)%Z then
        let step := delta / IZR div in
        if Req_dec_T step 0
        then (map (fun v => v / IZR div * delta) y, Fin step)
        else (map (fun v => v * step) y, Fin step)
      else (map (fun v => v * delta) y, NaN) in
    let y := map (fun v => v + start) y in
    let y := if (1 <? num)%Z then set_last y stop else y in
    Ok (y, step).

End Np.

(** ** The four rules, as the notebook defines them *)

(** [RiemannSum(f, N, a, b, t)]: the step is computed first, then the kind is
    read off the first character of [t]. *)
Definition RiemannSum (f : R -> R) (N : Z) (a b : R) (t : string)
    : result pyfloat :=
  D <- truediv (b - a) N ;;
  c <- str_head t ;;
  X <- (if Ascii.eqb c "l" then
          Ok (map (fun i => D * IZR i + a) (range N))
        else
          c' <- str_head t ;;
          if Ascii.eqb c' "r" then
            Ok (map (fun i => D * IZR (i + 1) + a) (range N))
          else
            Ok (map (fun i => D * (IZR i + 0.5) + a) (range N))) ;;
  Ok (Fin (Np.sum (map f X) * D)).

(** [trapezoidal(f, N, a, b)]. *)
Definition trapezoidal (f : R -> R) (N : Z) (a b : R) : result pyfloat :=
  ' (X, D) <- Np.linspace a b (N + 1) ;;
  Ok (fmul (fmul (Fin (Np.sum (Np.add (map f (tl X)) (map f (removelast X)))))
                 (Fin 0.5))
           D).

(** [simpson(f, N, a, b)]. *)
Definition simpson (f : R -> R) (N : Z) (a b : R) : result pyfloat :=
  ' (X, D) <- Np.linspace a b (N + 1) ;;
  for_each (range (N / 2))
    (fun i S =>
       l <- getitem X (2 * i) ;;
       m <- getitem X (2 * i + 1) ;;
       r <- getitem X (2 * i + 2) ;;
       Ok (fadd S (fdiv (fmul D (Fin (f l + 4 * f m + f r))) 3)))
    (Fin 0).

(** [bode(f, N, a, b)]. *)
Definition bode (f : R -> R) (N : Z) (a b : R) : result pyfloat :=
  ' (X, D) <- Np.linspace a b (N + 1) ;;
  for_each (range (N / 4))
    (fun i S =>
       x0 <- getitem X (4 * i) ;;
       x1 <- getitem X (4 * i + 1) ;;
       x2 <- getitem X (4 * i + 2) ;;
       x3 <- getitem X (4 * i + 3) ;;
       x4 <- getitem X (4 * i + 4) ;;
       Ok (fadd S (fdiv (fmul D (Fin (14 * f x0 + 64 * f x1 + 24 * f x2
                                      + 64 * f x3 + 14 * f x4))) 45)))
    (Fin 0).

(** ** Sums and partitions in which the rules are stated *)

(** [Rsum n g] is [g 0 + g 1 + ... + g (n-1)]. *)
Fixpoint Rsum (n : nat) (g : nat -> R) : R :=
  match n with
  | O => 0
  | S k => Rsum k g + g k
  end.

(** The step [(b - a) / N] of the partition of [[a, b]] into [N] parts. *)
Definition step (a b : R) (N : Z) : R := (b - a) / IZR N.

(** The partition point [X_i = a + i * step]. *)
Definition point (a b : R) (N : Z) (i : nat) : R := a + INR i * step a b N.

(** The [N + 1] partition points [X_0 .. X_N]. *)
Definition partition (a b : R) (N : Z) : list R :=
  map (point a b N) (seq 0 (S (Z.to_nat N))).

(** ** The formulas of the rules, in the words of the specification *)

(** Riemann sum over [N] sample points [a + (i + o) * step], where the offset
    [o] is [0] (left), [1] (right) or [1/2] (middle). *)
Definition riemann_formula (f : R -> R) (N : Z) (a b : R) (o : R) : R :=
  step a b N * Rsum (Z.to_nat N) (fun i => f (a + (INR i + o) * step a b N)).

(** Trapezoidal rule, pairwise form. *)
Definition trapezoidal_pairwise (f : R -> R) (N : Z) (a b : R) : R :=
  step a b N / 2
  * Rsum (Z.to_nat N) (fun i => f (point a b N i) + f (point a b N (S i))).

(** Trapezoidal rule, closed form: half weights at both ends. *)
Definition trapezoidal_closed (f : R -> R) (N : Z) (a b : R) : R :=
  step a b N
  * (f (point a b N 0) / 2
     + Rsum (Z.to_nat N - 1) (fun i => f (point a b N (S i)))
     + f (point a b N (Z.to_nat N)) / 2).

(** Contribution of the [k]-th pair of sub-intervals to Simpson's rule. *)
Definition simpson_panel (f : R -> R) (N : Z) (a b : R) (k : nat) : R :=
  step a b N / 3
  * (f (point a b N (2 * k)) + 4 * f (point a b N (2 * k + 1))
     + f (point a b N (2 * k + 2))).

(** Contribution of the [k]-th group of five points to Bode's rule. *)
Definition bode_panel (f : R -> R) (N : Z) (a b : R) (k : nat) : R :=
  step a b N / 45
  * (14 * f (point a b N (4 * k)) + 64 * f (point a b N (4 * k + 1))
     + 24 * f (point a b N (4 * k + 2)) + 64 * f (point a b N (4 * k + 3))
     + 14 * f (point a b N (4 * k + 4))).

(** The offset that [RiemannSum] selects from the first character of the
    kind: ['l'] is left, ['r'] is right, anything else is middle. *)
Definition kind_offset (c : ascii) : R :=
  if Ascii.eqb c "l" then 0 else if Ascii.eqb c "r" then 1 else 0.5.

(** ** Polynomial integrands *)

(** An affine integrand. *)
Definition affine (c0 c1 x : R) : R := c0 + c1 * x.

(** A polynomial integrand of degree at most three. *)
Definition poly3 (c0 c1 c2 c3 x : R) : R :=
  c0 + c1 * x + c2 * (x * x) + c3 * (x * x * x).

(** The antiderivative of [poly3] that vanishes at [0]. *)
Definition poly3_prim (c0 c1 c2 c3 x : R) : R :=
  c0 * x + c1 * (x * x) / 2 + c2 * (x * x * x) / 3
  + c3 * (x * x * x * x) / 4.

(** ** The integrands and the error measure of the notebook's experiments *)

(** [returns r v]: the call returned the finite number [v]. *)
Definition returns (r : result pyfloat) (v : R) : Prop := r = Ok (Fin v).

(** A polynomial integrand of degree at most six. *)
Definition poly6 (c0 c1 c2 c3 c4 c5 c6 x : R) : R :=
  c0 + c1 * x + c2 * x ^ 2 + c3 * x ^ 3 + c4 * x ^ 4 + c5 * x ^ 5
  + c6 * x ^ 6.

(** The antiderivative of [poly6] that vanishes at [0]. *)
Definition poly6_prim (c0 c1 c2 c3 c4 c5 c6 x : R) : R :=
  c0 * x + c1 * x ^ 2 / 2 + c2 * x ^ 3 / 3 + c3 * x ^ 4 / 4
  + c4 * x ^ 5 / 5 + c5 * x ^ 6 / 6 + c6 * x ^ 7 / 7.

Module Notebook.

(** [f(x) = np.exp(x)]. *)
Definition f (x : R) : R := exp x.

(** [g(x) = np.sin(x * np.pi / 2)], a half-cycle of the sine. *)
Definition g (x : R) : R := sin (x * PI / 2).

(** [Ns = np.array([8, 16, 32, 64, 128, 256, 512, 1024])], the subdivision
    counts of the convergence experiments. *)
Definition Ns : list Z := [8; 16; 32; 64; 128; 256; 512; 1024]%Z.

(** The Riemann sums that the notebook first computes inline, for the
    count [N] it has just set and [D = 1 / N]:
    [X_left = [D * i for i in range(N)]] and
    [S_left = np.sum(f(X_left) * D)], and likewise for right and middle. *)
Definition S_left (f : R -> R) (N : Z) : result pyfloat :=
  D <- truediv 1 N ;;
  let X_left := map (fun i => D * IZR i) (range N) in
  Ok (Fin (Np.sum (map (fun y => y * D) (map f X_left)))).

Definition S_right (f : R -> R) (N : Z) : result pyfloat :=
  D <- truediv 1 N ;;
  let X_right := map (fun i => D * IZR (i + 1)) (range N) in
  Ok (Fin (Np.sum (map (fun y => y * D) (map f X_right)))).

Definition S_mid (f : R -> R) (N : Z) : result pyfloat :=
  D <- truediv 1 N ;;
  let X_mid := map (fun i => D * (IZR i + 0.5)) (range N) in
  Ok (Fin (Np.sum (map (fun y => y * D) (map f X_mid)))).

(** [0.5 * (X[:-1] + X[1:])]: the midpoints of a grid. *)
Definition midpoints (X : list R) : list R :=
  map (fun v => 0.5 * v) (Np.add (removelast X) (tl X)).

End Notebook.

Definition fsub (x y : pyfloat) : pyfloat :=
  match x, y with
  | Fin u, Fin v => Fin (u - v)
  | _, _ => NaN
  end.

Definition fabs (x : pyfloat) : pyfloat :=
  match x with
  | Fin u => Fin (Rabs u)
  | NaN => NaN
  end.

(** [error_below B N e]: the recorded error [e] is a number between [0]
    and [B N]. *)
Definition error_below (B : Z -> R) (N : Z) (e : pyfloat) : Prop :=
  exists w : R, e = Fin w /\ 0 <= w <= B N.

(** [abs(r - I)]: the absolute error of a computed value [r] against the
    known value [I] of the integral. *)
Definition abs_error (r : result pyfloat) (I : R) : result pyfloat :=
  v <- r ;; Ok (fabs (fsub v (Fin I))).

(** [[abs(rule(N) - I) for N in Ns]]: the errors over a list of subdivision
    counts; the first call that raises ends the comprehension. *)
Fixpoint errors (rule : Z -> result pyfloat) (I : R) (Ns : list Z)
    : result (list pyfloat) :=
  match Ns with
  | [] => Ok []
  | N :: Ns' =>
      e <- abs_error (rule N) I ;;
      es <- errors rule I Ns' ;;
      Ok (e :: es)
  end.

(** ** Facts about the Python operations *)

Section Primitives.

Lemma range_of_nat (n : nat) : range (Z.of_nat n) = map Z.of_nat (seq 0 n).
Proof. unfold range. now rewrite Nat2Z.id. Qed.

Lemma range_succ (n : nat) :
  range (Z.of_nat (S n)) = range (Z.of_nat n) ++ [Z.of_nat n].
Proof. rewrite !range_of_nat, seq_S, map_app. reflexivity. Qed.

Lemma for_each_app {A S : Type} (l1 l2 : list A) (body : A -> S -> result S)
    (s : S) :
  for_each (l1 ++ l2) body s = (s' <- for_each l1 body s ;; for_each l2 body s').
Proof.
  revert s. induction l1 as [|x l1 IH]; intros s; simpl; [reflexivity|].
  destruct (body x s) as [s'|e]; simpl; [apply IH | reflexivity].
Qed.

Lemma sum_snoc (l : list R) (x : R) : Np.sum (l ++ [x]) = Np.sum l + x.
Proof. unfold Np.sum. now rewrite fold_left_app. Qed.

Lemma sum_map_seq (n : nat) (g : nat -> R) :
  Np.sum (map g (seq 0 n)) = Rsum n g.
Proof.
  induction n as [|n IH]; [reflexivity|].
  rewrite seq_S, map_app. cbn [map Nat.add].
  rewrite sum_snoc, IH. reflexivity.
Qed.

Lemma Rsum_ext (n : nat) (g h : nat -> R) :
  (forall i, (i < n)%nat -> g i = h i) -> Rsum n g = Rsum n h.
Proof.
  induction n as [|n IH]; intros E; simpl; [reflexivity|].
  rewrite IH, E by auto with arith. reflexivity.
Qed.

Lemma Rsum_scal (n : nat) (c : R) (g : nat -> R) :
  Rsum n (fun i => c * g i) = c * Rsum n g.
Proof. induction n as [|n IH]; simpl; [ring | rewrite IH; ring]. Qed.

Lemma set_last_snoc (l : list R) (x v : R) :
  Np.set_last (l ++ [x]) v = l ++ [v].
Proof.
  unfold Np.set_last. rewrite removelast_last.
  destruct l; reflexivity.
Qed.

Lemma getitem_nth (X : list R) (i : nat) :
  (i < List.length X)%nat -> getitem X (Z.of_nat i) = Ok (nth i X 0).
Proof.
  intros Hi. unfold getitem.
  replace ((0 <=? Z.of_nat i)%Z && (Z.of_nat i <? Z.of_nat (List.length X))%Z)%bool
    with true.
  - now rewrite Nat2Z.id.
  - symmetry. apply andb_true_intro. split; [apply Z.leb_le | apply Z.ltb_lt]; lia.
Qed.

End Primitives.

(** ** The partition that [np.linspace] builds *)

Section Linspace.

Variables a b : R.

Lemma point_last (N : Z) : (1 <= N)%Z -> point a b N (Z.to_nat N) = b.
Proof.
  intros HN. unfold point, step.
  rewrite INR_IZR_INZ, Z2Nat.id by lia.
  field. apply not_0_IZR. lia.
Qed.

Lemma point_first (N : Z) : point a b N 0 = a.
Proof. unfold point. simpl. ring. Qed.

Lemma partition_length (N : Z) :
  List.length (partition a b N) = S (Z.to_nat N).
Proof. unfold partition. now rewrite length_map, length_seq. Qed.

Lemma partition_nth (N : Z) (i : nat) :
  (i <= Z.to_nat N)%nat -> nth i (partition a b N) 0 = point a b N i.
Proof.
  intros Hi. unfold partition.
  rewrite nth_indep with (d' := point a b N 0%nat)
    by (rewrite length_map, length_seq; lia).
  rewrite map_nth, seq_nth by lia. reflexivity.
Qed.

Lemma getitem_partition (N : Z) (i : nat) :
  (i <= Z.to_nat N)%nat ->
  getitem (partition a b N) (Z.of_nat i) = Ok (point a b N i).
Proof.
  intros Hi. rewrite getitem_nth by (rewrite partition_length; lia).
  now rewrite partition_nth.
Qed.

(** For [N >= 1], [np.linspace(a, b, N+1, retstep=True)] is the partition
    and its step. *)
Lemma linspace_partition (N : Z) :
  (1 <= N)%Z ->
  Np.linspace a b (N + 1) = Ok (partition a b N, Fin (step a b N)).
Proof.
  intros HN. unfold Np.linspace.
  replace (N + 1 <? 0)%Z with false by (symmetry; apply Z.ltb_ge; lia).
  replace (0 <? N + 1 - 1)%Z with true by (symmetry; apply Z.ltb_lt; lia).
  replace (1 <? N + 1)%Z with true by (symmetry; apply Z.ltb_lt; lia).
  replace (N + 1 - 1)%Z with N by lia.
  fold (step a b N).
  assert (HN0 : IZR N <> 0) by (apply not_0_IZR; lia).
  assert (Hpts : forall g : R -> R,
             (forall v, g v = v * step a b N) ->
             Np.set_last
               (map (fun v => v + a) (map g (map IZR (range (N + 1))))) b
             = partition a b N).
  { intros g Hg. unfold range, partition.
    replace (Z.to_nat (N + 1)) with (S (Z.to_nat N)) by lia.
    rewrite !map_map, !seq_S, !map_app. simpl.
    rewrite set_last_snoc. f_equal.
    - apply map_ext. intros i. unfold point.
      rewrite Hg, INR_IZR_INZ. ring.
    - now rewrite point_last. }
  destruct (Req_dec_T (step a b N) 0) as [Hz|Hnz].
  - rewrite Hpts; [reflexivity|].
    intros v. unfold step. field. exact HN0.
  - rewrite Hpts; [reflexivity|]. reflexivity.
Qed.

(** [num = 1]: one sample, undefined step. *)
Lemma linspace_one : Np.linspace a b 1 = Ok ([0 * (b - a) + a], NaN).
Proof. reflexivity. Qed.

(** [num = 0]: no sample, undefined step. *)
Lemma linspace_zero : Np.linspace a b 0 = Ok ([], NaN).
Proof. reflexivity. Qed.

(** A negative [num] is refused. *)
Lemma linspace_negative (num : Z) :
  (num < 0)%Z -> Np.linspace a b num = Raise ValueError.
Proof.
  intros H. unfold Np.linspace.
  replace (num <? 0)%Z with true by (symmetry; apply Z.ltb_lt; lia).
  reflexivity.
Qed.

End Linspace.

(** ** What each rule returns *)

Section Rules.

Variable f : R -> R.
Variables a b : R.

(** A loop whose body adds [g k] to the accumulator at step [k] returns
    the sum of the [g k]. *)
Lemma for_each_accumulate (body : Z -> pyfloat -> result pyfloat)
    (g : nat -> R) (m : nat) :
  (forall k s, (k < m)%nat ->
     body (Z.of_nat k) (Fin s) = Ok (Fin (s + g k))) ->
  for_each (range (Z.of_nat m)) body (Fin 0) = Ok (Fin (0 + Rsum m g)).
Proof.
  induction m as [|m IH]; intros Hbody.
  - simpl. do 2 f_equal. ring.
  - rewrite range_succ, for_each_app, IH by (intros; apply Hbody; lia).
    simpl. rewrite Hbody by lia. simpl. do 2 f_equal. ring.
Qed.

Lemma simpson_value (N : Z) :
  (1 <= N)%Z ->
  simpson f N a b = Ok (Fin (Rsum (Z.to_nat (N / 2)) (simpson_panel f N a b))).
Proof.
  intros HN. unfold simpson. rewrite linspace_partition by exact HN.
  cbn [bind].
  assert (Hdiv : (0 <= N / 2 /\ 2 * (N / 2) <= N)%Z).
  { split; [apply Z.div_pos; lia | apply Z.mul_div_le; lia]. }
  rewrite <- (Z2Nat.id (N / 2)) at 1 by lia.
  rewrite for_each_accumulate with (g := simpson_panel f N a b).
  - do 2 f_equal. ring.
  - intros k s Hk. cbv beta.
    replace (2 * Z.of_nat k)%Z with (Z.of_nat (2 * k)) by lia.
    replace (Z.of_nat (2 * k) + 1)%Z with (Z.of_nat (2 * k + 1)) by lia.
    replace (Z.of_nat (2 * k) + 2)%Z with (Z.of_nat (2 * k + 2)) by lia.
    rewrite !getitem_partition by lia.
    cbn [bind fadd fmul fdiv]. do 2 f_equal. unfold simpson_panel. field.
Qed.

Lemma bode_value (N : Z) :
  (1 <= N)%Z ->
  bode f N a b = Ok (Fin (Rsum (Z.to_nat (N / 4)) (bode_panel f N a b))).
Proof.
  intros HN. unfold bode. rewrite linspace_partition by exact HN.
  cbn [bind].
  assert (Hdiv : (0 <= N / 4 /\ 4 * (N / 4) <= N)%Z).
  { split; [apply Z.div_pos; lia | apply Z.mul_div_le; lia]. }
  rewrite <- (Z2Nat.id (N / 4)) at 1 by lia.
  rewrite for_each_accumulate with (g := bode_panel f N a b).
  - do 2 f_equal. ring.
  - intros k s Hk. cbv beta.
    replace (4 * Z.of_nat k)%Z with (Z.of_nat (4 * k)) by lia.
    replace (Z.of_nat (4 * k) + 1)%Z with (Z.of_nat (4 * k + 1)) by lia.
    replace (Z.of_nat (4 * k) + 2)%Z with (Z.of_nat (4 * k + 2)) by lia.
    replace (Z.of_nat (4 * k) + 3)%Z with (Z.of_nat (4 * k + 3)) by lia.
    replace (Z.of_nat (4 * k) + 4)%Z with (Z.of_nat (4 * k + 4)) by lia.
    rewrite !getitem_partition by lia.
    cbn [bind fadd fmul fdiv]. do 2 f_equal. unfold bode_panel. field.
Qed.

Lemma add_map_map {A : Type} (u v : A -> R) (l : list A) :
  Np.add (map f (map u l)) (map f (map v l))
  = map (fun i => f (u i) + f (v i)) l.
Proof.
  unfold Np.add. induction l as [|x l IH]; simpl; [reflexivity|].
  now rewrite IH.
Qed.

Lemma partition_tl (N : Z) :
  tl (partition a b N)
  = map (fun i => point a b N (S i)) (seq 0 (Z.to_nat N)).
Proof.
  unfold partition. simpl. now rewrite <- seq_shift, map_map.
Qed.

Lemma partition_removelast (N : Z) :
  removelast (partition a b N) = map (point a b N) (seq 0 (Z.to_nat N)).
Proof.
  unfold partition. rewrite seq_S, map_app. cbn [map].
  apply removelast_last.
Qed.

Lemma trapezoidal_value (N : Z) :
  (1 <= N)%Z ->
  trapezoidal f N a b = Ok (Fin (trapezoidal_pairwise f N a b)).
Proof.
  intros HN. unfold trapezoidal. rewrite linspace_partition by exact HN.
  cbn [bind fmul].
  rewrite partition_tl, partition_removelast, add_map_map, sum_map_seq.
  do 2 f_equal. unfold trapezoidal_pairwise.
  rewrite (Rsum_ext _ _ (fun i => f (point a b N i) + f (point a b N (S i))))
    by (intros; ring).
  lra.
Qed.

Lemma RiemannSum_value (N : Z) (c : ascii) (t : string) :
  N <> 0%Z ->
  RiemannSum f N a b (String c t)
  = Ok (Fin (riemann_formula f N a b (kind_offset c))).
Proof.
  intros HN. unfold RiemannSum, truediv, kind_offset.
  replace (N =? 0)%Z with false by (symmetry; apply Z.eqb_neq; exact HN).
  cbn [bind str_head]. fold (step a b N). unfold range.
  destruct (Ascii.eqb c "l"); [|destruct (Ascii.eqb c "r")];
    cbn [bind]; rewrite !map_map, sum_map_seq; do 2 f_equal;
    unfold riemann_formula; rewrite Rmult_comm; f_equal;
    apply Rsum_ext; intros i _; f_equal;
    rewrite ?plus_IZR, <- INR_IZR_INZ; ring.
Qed.

Lemma RiemannSum_zero (t : string) :
  RiemannSum f 0 a b t = Raise ZeroDivisionError.
Proof. reflexivity. Qed.

Lemma RiemannSum_empty_kind (N : Z) :
  N <> 0%Z -> RiemannSum f N a b EmptyString = Raise IndexError.
Proof.
  intros HN. unfold RiemannSum, truediv.
  replace (N =? 0)%Z with false by (symmetry; apply Z.eqb_neq; exact HN).
  reflexivity.
Qed.

End Rules.

(** ** Exactness on polynomials *)

Section Exactness.

Lemma Rsum_telescope (n : nat) (G : nat -> R) :
  Rsum n (fun i => G (S i) - G i) = G n - G 0%nat.
Proof. induction n as [|n IH]; simpl; [ring | rewrite IH; ring]. Qed.

(** The integral of a continuous function is the increment of any of its
    antiderivatives. *)
Lemma RiemannInt_antiderivative (f F : R -> R) (a b : R)
    (pr : Riemann_integrable f a b) :
  a <= b ->
  (forall x, a <= x <= b -> continuity_pt f x) ->
  antiderivative f F a b ->
  RiemannInt pr = F b - F a.
Proof.
  intros Hab Hc HF.
  rewrite (RiemannInt_P20 Hab (FTC_P1 Hab Hc) pr).
  destruct (antiderivative_Ucte f _ _ a b (RiemannInt_P29 Hab Hc) HF)
    as [c Hcst].
  rewrite (Hcst a), (Hcst b) by lra. ring.
Qed.

Variables c0 c1 c2 c3 : R.

Lemma poly3_continuity : continuity (poly3 c0 c1 c2 c3).
Proof. unfold poly3. reg. Qed.

Lemma poly3_prim_derivable : derivable (poly3_prim c0 c1 c2 c3).
Proof. unfold poly3_prim. reg. Qed.

Lemma poly3_prim_derive (x : R) :
  derive_pt (poly3_prim c0 c1 c2 c3) x (poly3_prim_derivable x)
  = poly3 c0 c1 c2 c3 x.
Proof. unfold poly3_prim, poly3. reg. unfold pow. field. Qed.

Lemma poly3_integral (a b : R)
    (pr : Riemann_integrable (poly3 c0 c1 c2 c3) a b) :
  a <= b ->
  RiemannInt pr = poly3_prim c0 c1 c2 c3 b - poly3_prim c0 c1 c2 c3 a.
Proof.
  intros Hab. apply RiemannInt_antiderivative; [exact Hab | |].
  - intros x _. apply poly3_continuity.
  - split; [|exact Hab]. intros x _.
    exists (poly3_prim_derivable x). symmetry. apply poly3_prim_derive.
Qed.

(** One pair of sub-intervals integrates a cubic exactly. *)
Lemma simpson_panel_exact (N : Z) (a b : R) (k : nat) :
  simpson_panel (poly3 c0 c1 c2 c3) N a b k
  = poly3_prim c0 c1 c2 c3 (point a b N (2 * S k))
    - poly3_prim c0 c1 c2 c3 (point a b N (2 * k)).
Proof.
  unfold simpson_panel, point, poly3, poly3_prim.
  replace (2 * S k)%nat with (2 * k + 2)%nat by lia.
  rewrite !plus_INR, mult_INR. simpl INR. field.
Qed.

Lemma simpson_sum_exact (N : Z) (a b : R) (m : nat) :
  Rsum m (simpson_panel (poly3 c0 c1 c2 c3) N a b)
  = poly3_prim c0 c1 c2 c3 (point a b N (2 * m)) - poly3_prim c0 c1 c2 c3 a.
Proof.
  rewrite (Rsum_ext _ _ (fun k =>
             poly3_prim c0 c1 c2 c3 (point a b N (2 * S k))
             - poly3_prim c0 c1 c2 c3 (point a b N (2 * k))))
    by (intros; apply simpson_panel_exact).
  rewrite (Rsum_telescope m
             (fun k => poly3_prim c0 c1 c2 c3 (point a b N (2 * k)))).
  now rewrite Nat.mul_0_r, point_first.
Qed.

End Exactness.

Section ExactnessAffine.

Variables c0 c1 : R.

Lemma affine_poly3 (x : R) : affine c0 c1 x = poly3 c0 c1 0 0 x.
Proof. unfold affine, poly3. ring. Qed.

Lemma affine_continuity : continuity (affine c0 c1).
Proof. unfold affine. reg. Qed.

Lemma affine_integral (a b : R)
    (pr : Riemann_integrable (affine c0 c1) a b) :
  a <= b ->
  RiemannInt pr = poly3_prim c0 c1 0 0 b - poly3_prim c0 c1 0 0 a.
Proof.
  intros Hab.
  assert (pr' : Riemann_integrable (poly3 c0 c1 0 0) a b).
  { apply continuity_implies_RiemannInt; [exact Hab|].
    intros x _. apply poly3_continuity. }
  rewrite (RiemannInt_P18 pr pr' Hab) by (intros; apply affine_poly3).
  now apply poly3_integral.
Qed.

Lemma trapezoidal_sum_exact (N : Z) (a b : R) :
  (1 <= N)%Z ->
  trapezoidal_pairwise (affine c0 c1) N a b
  = poly3_prim c0 c1 0 0 b - poly3_prim c0 c1 0 0 a.
Proof.
  intros HN. unfold trapezoidal_pairwise.
  rewrite <- Rsum_scal.
  rewrite (Rsum_ext _ _ (fun i =>
             poly3_prim c0 c1 0 0 (point a b N (S i))
             - poly3_prim c0 c1 0 0 (point a b N i))).
  - rewrite (Rsum_telescope _ (fun i => poly3_prim c0 c1 0 0 (point a b N i))).
    now rewrite point_last, point_first.
  - intros i _. unfold point, affine, poly3_prim. rewrite S_INR. field.
Qed.

End ExactnessAffine.


(** ** Subdivision counts that are zero or negative *)

Section NonPositive.

Variable f : R -> R.
Variables a b : R.

Lemma RiemannSum_negative (N : Z) (c : ascii) (t : string) :
  (N < 0)%Z -> RiemannSum f N a b (String c t) = Ok (Fin 0).
Proof.
  intros HN. rewrite RiemannSum_value by lia.
  unfold riemann_formula. replace (Z.to_nat N) with O by lia.
  simpl. do 2 f_equal. ring.
Qed.

Lemma trapezoidal_zero : trapezoidal f 0 a b = Ok NaN.
Proof. reflexivity. Qed.

Lemma trapezoidal_minus_one : trapezoidal f (-1) a b = Ok NaN.
Proof. reflexivity. Qed.

Lemma simpson_zero : simpson f 0 a b = Ok (Fin 0).
Proof. reflexivity. Qed.

Lemma simpson_minus_one : simpson f (-1) a b = Ok (Fin 0).
Proof. reflexivity. Qed.

Lemma bode_zero : bode f 0 a b = Ok (Fin 0).
Proof. reflexivity. Qed.

Lemma bode_minus_one : bode f (-1) a b = Ok (Fin 0).
Proof. reflexivity. Qed.

Lemma linspace_rules_refuse (N : Z) :
  (N <= -2)%Z ->
  trapezoidal f N a b = Raise ValueError
  /\ simpson f N a b = Raise ValueError
  /\ bode f N a b = Raise ValueError.
Proof.
  intros HN. unfold trapezoidal, simpson, bode.
  rewrite linspace_negative by lia. repeat split.
Qed.

End NonPositive.

(** ** Sums over pairs and truncated partitions *)

Section Panels.

Lemma Rsum_pairs (g : nat -> R) (m : nat) :
  Rsum (S m) (fun i => g i + g (S i))
  = g 0%nat + 2 * Rsum m (fun i => g (S i)) + g (S m).
Proof.
  induction m as [|m IH].
  - simpl. ring.
  - change (Rsum (S (S m)) (fun i => g i + g (S i)))
      with (Rsum (S m) (fun i => g i + g (S i)) + (g (S m) + g (S (S m)))).
    rewrite IH. simpl. ring.
Qed.

Lemma pairwise_closed (f : R -> R) (N : Z) (a b : R) :
  (1 <= N)%Z -> trapezoidal_pairwise f N a b = trapezoidal_closed f N a b.
Proof.
  intros HN. unfold trapezoidal_pairwise, trapezoidal_closed.
  destruct (Z.to_nat N) as [|m] eqn:En; [lia|].
  rewrite (Rsum_pairs (fun i => f (point a b N i))).
  replace (S m - 1)%nat with m by lia. field.
Qed.

Lemma simpson_panel_ext (f g : R -> R) (N : Z) (a b : R) (k : nat) :
  (forall i, (i <= 2 * k + 2)%nat -> g (point a b N i) = f (point a b N i)) ->
  simpson_panel g N a b k = simpson_panel f N a b k.
Proof.
  intros E. unfold simpson_panel. rewrite !E by lia. reflexivity.
Qed.

Lemma bode_panel_ext (f g : R -> R) (N : Z) (a b : R) (k : nat) :
  (forall i, (i <= 4 * k + 4)%nat -> g (point a b N i) = f (point a b N i)) ->
  bode_panel g N a b k = bode_panel f N a b k.
Proof.
  intros E. unfold bode_panel. rewrite !E by lia. reflexivity.
Qed.

Lemma odd_half (N : Z) : Z.odd N = true -> (2 * (N / 2) = N - 1)%Z.
Proof.
  intros Ho. apply Z.odd_spec in Ho. destruct Ho as [k ->].
  pose proof (Z.div_mod (2 * k + 1) 2).
  pose proof (Z.mod_pos_bound (2 * k + 1) 2). lia.
Qed.

Lemma even_half (N : Z) : Z.even N = true -> (2 * (N / 2) = N)%Z.
Proof.
  intros He. apply Z.even_spec in He. destruct He as [k ->].
  pose proof (Z.div_mod (2 * k) 2).
  pose proof (Z.mod_pos_bound (2 * k) 2). lia.
Qed.

End Panels.


(** * Properties of the rules *)

(** ** Subdivision counts that the rules do not check *)

(** C1, as stated, fails: [simpson] with [N = 7] and [bode] with [N = 6]
    raise nothing; on the identity over [[0, 1]] they return the sums over
    the first six and the first four sub-intervals. *)
Lemma simpson_seven_bode_six_return :
  simpson (fun x => x) 7 0 1 = Ok (Fin (18 / 49))
  /\ bode (fun x => x) 6 0 1 = Ok (Fin (2 / 9))
  /\ ~ fails (simpson (fun x => x) 7 0 1)
  /\ ~ fails (bode (fun x => x) 6 0 1).
Proof.
  assert (Hs : simpson (fun x => x) 7 0 1 = Ok (Fin (18 / 49))).
  { rewrite simpson_value by lia.
    change (Z.to_nat (7 / 2)) with 3%nat.
    do 2 f_equal. unfold simpson_panel, point, step. simpl. field. }
  assert (Hb : bode (fun x => x) 6 0 1 = Ok (Fin (2 / 9))).
  { rewrite bode_value by lia.
    change (Z.to_nat (6 / 4)) with 1%nat.
    do 2 f_equal. unfold bode_panel, point, step. simpl. field. }
  rewrite Hs, Hb. simpl. tauto.
Qed.

(** C1, amended: calling [simpson] with an odd subdivision count [N >= 1],
    or [bode] with [N >= 1] not a multiple of 4, raises no error: the call
    returns a finite number. *)
Theorem simpson_bode_no_count_check (f : R -> R) (N : Z) (a b : R) :
  (1 <= N)%Z ->
  (Z.odd N = true ->
     ~ fails (simpson f N a b) /\ exists v, simpson f N a b = Ok (Fin v))
  /\ ((N mod 4 <> 0)%Z ->
     ~ fails (bode f N a b) /\ exists v, bode f N a b = Ok (Fin v)).
Proof.
  intros HN. split; intros _.
  - rewrite simpson_value by exact HN. split; [exact (fun x => x) | eauto].
  - rewrite bode_value by exact HN. split; [exact (fun x => x) | eauto].
Qed.

Lemma simpson_bode_no_count_check_witness :
  (1 <= 7)%Z
  /\ (Z.odd 7 = true ->
        ~ fails (simpson (fun x => x) 7 0 1)
        /\ exists v, simpson (fun x => x) 7 0 1 = Ok (Fin v))
  /\ ((7 mod 4 <> 0)%Z ->
        ~ fails (bode (fun x => x) 7 0 1)
        /\ exists v, bode (fun x => x) 7 0 1 = Ok (Fin v)).
Proof.
  split; [lia | apply (simpson_bode_no_count_check (fun x => x) 7 0 1); lia].
Defined.

(** C2, as stated, fails: with [N = -1] the Riemann sum returns [0], and
    with [N = 0] Simpson's and Bode's rules return [0] and the trapezoidal
    rule returns NaN; none of these calls raises. *)
Lemma nonpositive_count_not_reported :
  (-1 <= 0)%Z
  /\ RiemannSum (fun x => x) (-1) 0 1 "mid" = Ok (Fin 0)
  /\ ~ fails (RiemannSum (fun x => x) (-1) 0 1 "mid")
  /\ simpson (fun x => x) 0 0 1 = Ok (Fin 0)
  /\ bode (fun x => x) 0 0 1 = Ok (Fin 0)
  /\ trapezoidal (fun x => x) 0 0 1 = Ok NaN.
Proof.
  split; [lia|].
  rewrite RiemannSum_negative by lia. simpl.
  repeat split; tauto.
Qed.

(** C2, amended: a subdivision count [N <= 0] is reported as a failure only
    in two cases: [RiemannSum] with [N = 0] (division by zero, on Python
    numbers) and [trapezoidal], [simpson], [bode] with [N <= -2]
    ([np.linspace] refuses a negative number of samples).  Otherwise the
    call returns: [RiemannSum] with [N < 0] and a non-empty kind returns
    [0]; with [N] in [{0, -1}], [simpson] and [bode] return [0] and
    [trapezoidal] returns NaN. *)
Theorem nonpositive_count_outcomes (f : R -> R) (a b : R) (c : ascii)
    (t : string) (N : Z) :
  (N <= 0)%Z ->
  (N = 0%Z -> RiemannSum f N a b (String c t) = Raise ZeroDivisionError)
  /\ ((N < 0)%Z -> RiemannSum f N a b (String c t) = Ok (Fin 0))
  /\ ((N <= -2)%Z ->
        trapezoidal f N a b = Raise ValueError
        /\ simpson f N a b = Raise ValueError
        /\ bode f N a b = Raise ValueError)
  /\ ((-1 <= N)%Z ->
        trapezoidal f N a b = Ok NaN
        /\ simpson f N a b = Ok (Fin 0)
        /\ bode f N a b = Ok (Fin 0)).
Proof.
  intros HN. repeat apply conj.
  - intros ->. apply RiemannSum_zero.
  - intros Hneg. now apply RiemannSum_negative.
  - intros H2. apply (linspace_rules_refuse f a b N H2).
  - intros H1. assert (N = 0 \/ N = -1)%Z as [-> | ->] by lia;
      repeat split; reflexivity.
Qed.

Lemma nonpositive_count_outcomes_witness :
  (-1 <= 0)%Z
  /\ ((-1 = 0)%Z ->
        RiemannSum (fun x => x) (-1) 0 1 "mid" = Raise ZeroDivisionError)
  /\ ((-1 < 0)%Z -> RiemannSum (fun x => x) (-1) 0 1 "mid" = Ok (Fin 0))
  /\ ((-1 <= -2)%Z ->
        trapezoidal (fun x => x) (-1) 0 1 = Raise ValueError
        /\ simpson (fun x => x) (-1) 0 1 = Raise ValueError
        /\ bode (fun x => x) (-1) 0 1 = Raise ValueError)
  /\ ((-1 <= -1)%Z ->
        trapezoidal (fun x => x) (-1) 0 1 = Ok NaN
        /\ simpson (fun x => x) (-1) 0 1 = Ok (Fin 0)
        /\ bode (fun x => x) (-1) 0 1 = Ok (Fin 0)).
Proof.
  split; [lia|].
  apply (nonpositive_count_outcomes (fun x => x) 0 1 "m" "id" (-1)). lia.
Defined.

(** ** The value of each rule on a valid subdivision count *)

(** C3: for every integrand [f], every [N >= 1] and bounds [a], [b], the
    trapezoidal rule builds the [N + 1] equally spaced points [X_0 .. X_N]
    with [X_0 = a], [X_N = b] and step [(b - a) / N], and returns
    [(step / 2) * sum_{i < N} (f X_i + f X_{i+1})]. *)
Theorem trapezoidal_partition_and_sum (f : R -> R) (N : Z) (a b : R) :
  (1 <= N)%Z ->
  exists X : list R,
    Np.linspace a b (N + 1) = Ok (X, Fin ((b - a) / IZR N))
    /\ List.length X = S (Z.to_nat N)
    /\ nth 0 X 0 = a
    /\ nth (Z.to_nat N) X 0 = b
    /\ (forall i, (i <= Z.to_nat N)%nat ->
          nth i X 0 = a + INR i * ((b - a) / IZR N))
    /\ trapezoidal f N a b
       = Ok (Fin ((b - a) / IZR N / 2
                  * Rsum (Z.to_nat N)
                      (fun i => f (nth i X 0) + f (nth (S i) X 0)))).
Proof.
  intros HN. exists (partition a b N). repeat apply conj.
  - now apply linspace_partition.
  - apply partition_length.
  - rewrite partition_nth by lia. apply point_first.
  - rewrite partition_nth by lia. now apply point_last.
  - intros i Hi. now rewrite partition_nth.
  - rewrite trapezoidal_value by exact HN. do 2 f_equal.
    unfold trapezoidal_pairwise. f_equal.
    apply Rsum_ext. intros i Hi. now rewrite !partition_nth by lia.
Qed.

Lemma trapezoidal_partition_and_sum_witness :
  (1 <= 2)%Z
  /\ exists X : list R,
       Np.linspace 0 1 (2 + 1) = Ok (X, Fin ((1 - 0) / IZR 2))
       /\ List.length X = S (Z.to_nat 2)
       /\ nth 0 X 0 = 0
       /\ nth (Z.to_nat 2) X 0 = 1
       /\ (forall i, (i <= Z.to_nat 2)%nat ->
             nth i X 0 = 0 + INR i * ((1 - 0) / IZR 2))
       /\ trapezoidal (fun x => x * x) 2 0 1
          = Ok (Fin ((1 - 0) / IZR 2 / 2
                     * Rsum (Z.to_nat 2)
                         (fun i => (fun x => x * x) (nth i X 0)
                                   + (fun x => x * x) (nth (S i) X 0)))).
Proof.
  split; [lia|].
  apply (trapezoidal_partition_and_sum (fun x => x * x) 2 0 1). lia.
Defined.

(** C4: for every integrand [f], even [N >= 2] and bounds [a], [b],
    [simpson] splits [[a, b]] into [N / 2] pairs of adjacent sub-intervals
    and returns the sum over the pairs of
    [(step / 3) * (f x0 + 4 * f x1 + f x2)], where [x0], [x1], [x2] are the
    consecutive partition points of the pair and [step = (b - a) / N]. *)
Theorem simpson_even_sum (f : R -> R) (N : Z) (a b : R) :
  (2 <= N)%Z ->
  Z.even N = true ->
  simpson f N a b
  = Ok (Fin (Rsum (Z.to_nat (N / 2))
               (fun k =>
                  (b - a) / IZR N / 3
                  * (f (point a b N (2 * k))
                     + 4 * f (point a b N (2 * k + 1))
                     + f (point a b N (2 * k + 2))))))
  /\ (2 * (N / 2) = N)%Z
  /\ point a b N 0 = a
  /\ point a b N (2 * Z.to_nat (N / 2)) = b.
Proof.
  intros HN He. pose proof (even_half N He) as Hh. repeat apply conj.
  - rewrite simpson_value by lia. reflexivity.
  - exact Hh.
  - apply point_first.
  - replace (2 * Z.to_nat (N / 2))%nat with (Z.to_nat N) by lia.
    apply point_last. lia.
Qed.

Lemma simpson_even_sum_witness :
  (2 <= 4)%Z
  /\ Z.even 4 = true
  /\ simpson (fun x => x * x) 4 0 1
     = Ok (Fin (Rsum (Z.to_nat (4 / 2))
                  (fun k =>
                     (1 - 0) / IZR 4 / 3
                     * ((fun x => x * x) (point 0 1 4 (2 * k))
                        + 4 * (fun x => x * x) (point 0 1 4 (2 * k + 1))
                        + (fun x => x * x) (point 0 1 4 (2 * k + 2))))))
  /\ (2 * (4 / 2) = 4)%Z
  /\ point 0 1 4 0 = 0
  /\ point 0 1 4 (2 * Z.to_nat (4 / 2)) = 1.
Proof.
  split; [lia|]. split; [reflexivity|].
  apply (simpson_even_sum (fun x => x * x) 4 0 1); [lia | reflexivity].
Defined.

(** C5: for every integrand [f], [N] a positive multiple of 4 and bounds
    [a], [b], [bode] splits [[a, b]] into [N / 4] groups of five consecutive
    points [x0 .. x4] and returns the sum over the groups of
    [(step / 45) * (14 f x0 + 64 f x1 + 24 f x2 + 64 f x3 + 14 f x4)], with
    [step = (b - a) / N]. *)
Theorem bode_multiple_of_four_sum (f : R -> R) (N : Z) (a b : R) :
  (1 <= N)%Z ->
  (N mod 4 = 0)%Z ->
  bode f N a b
  = Ok (Fin (Rsum (Z.to_nat (N / 4))
               (fun k =>
                  (b - a) / IZR N / 45
                  * (14 * f (point a b N (4 * k))
                     + 64 * f (point a b N (4 * k + 1))
                     + 24 * f (point a b N (4 * k + 2))
                     + 64 * f (point a b N (4 * k + 3))
                     + 14 * f (point a b N (4 * k + 4))))))
  /\ (4 * (N / 4) = N)%Z
  /\ point a b N 0 = a
  /\ point a b N (4 * Z.to_nat (N / 4)) = b.
Proof.
  intros HN Hm.
  assert (Hq : (4 * (N / 4) = N)%Z) by (pose proof (Z.div_mod N 4); lia).
  repeat apply conj.
  - rewrite bode_value by lia. reflexivity.
  - exact Hq.
  - apply point_first.
  - replace (4 * Z.to_nat (N / 4))%nat with (Z.to_nat N) by lia.
    apply point_last. lia.
Qed.

Lemma bode_multiple_of_four_sum_witness :
  (1 <= 8)%Z
  /\ (8 mod 4 = 0)%Z
  /\ bode (fun x => x * x) 8 0 1
     = Ok (Fin (Rsum (Z.to_nat (8 / 4))
                  (fun k =>
                     (1 - 0) / IZR 8 / 45
                     * (14 * (fun x => x * x) (point 0 1 8 (4 * k))
                        + 64 * (fun x => x * x) (point 0 1 8 (4 * k + 1))
                        + 24 * (fun x => x * x) (point 0 1 8 (4 * k + 2))
                        + 64 * (fun x => x * x) (point 0 1 8 (4 * k + 3))
                        + 14 * (fun x => x * x) (point 0 1 8 (4 * k + 4))))))
  /\ (4 * (8 / 4) = 8)%Z
  /\ point 0 1 8 0 = 0
  /\ point 0 1 8 (4 * Z.to_nat (8 / 4)) = 1.
Proof.
  split; [lia|]. split; [reflexivity|].
  apply (bode_multiple_of_four_sum (fun x => x * x) 8 0 1); [lia | reflexivity].
Defined.

(** C6: for every integrand [f], [N >= 1], bounds [a], [b] and kind left,
    middle or right, [RiemannSum] returns [step * sum f x_i] over exactly
    [N] sample points, with [x_i = a + i * step] for left,
    [x_i = a + (i + 1) * step] for right and [x_i = a + (i + 0.5) * step]
    for middle, [i = 0 .. N - 1], where [step = (b - a) / N]. *)
Theorem RiemannSum_kinds (f : R -> R) (N : Z) (a b : R) :
  (1 <= N)%Z ->
  RiemannSum f N a b "left"
  = Ok (Fin ((b - a) / IZR N
             * Rsum (Z.to_nat N)
                 (fun i => f (a + INR i * ((b - a) / IZR N)))))
  /\ RiemannSum f N a b "right"
     = Ok (Fin ((b - a) / IZR N
                * Rsum (Z.to_nat N)
                    (fun i => f (a + (INR i + 1) * ((b - a) / IZR N)))))
  /\ RiemannSum f N a b "middle"
     = Ok (Fin ((b - a) / IZR N
                * Rsum (Z.to_nat N)
                    (fun i => f (a + (INR i + 0.5) * ((b - a) / IZR N)))))
  /\ RiemannSum f N a b "mid" = RiemannSum f N a b "middle".
Proof.
  intros HN. repeat apply conj.
  - rewrite RiemannSum_value by lia. do 2 f_equal.
    unfold riemann_formula, step, kind_offset. simpl. f_equal.
    apply Rsum_ext. intros i _. f_equal. ring.
  - rewrite RiemannSum_value by lia. reflexivity.
  - rewrite RiemannSum_value by lia. reflexivity.
  - rewrite !RiemannSum_value by lia. reflexivity.
Qed.

Lemma RiemannSum_kinds_witness :
  (1 <= 2)%Z
  /\ RiemannSum (fun x => x) 2 0 1 "left"
     = Ok (Fin ((1 - 0) / IZR 2
                * Rsum (Z.to_nat 2)
                    (fun i => (fun x => x) (0 + INR i * ((1 - 0) / IZR 2)))))
  /\ RiemannSum (fun x => x) 2 0 1 "right"
     = Ok (Fin ((1 - 0) / IZR 2
                * Rsum (Z.to_nat 2)
                    (fun i =>
                       (fun x => x) (0 + (INR i + 1) * ((1 - 0) / IZR 2)))))
  /\ RiemannSum (fun x => x) 2 0 1 "middle"
     = Ok (Fin ((1 - 0) / IZR 2
                * Rsum (Z.to_nat 2)
                    (fun i =>
                       (fun x => x) (0 + (INR i + 0.5) * ((1 - 0) / IZR 2)))))
  /\ RiemannSum (fun x => x) 2 0 1 "mid" = RiemannSum (fun x => x) 2 0 1 "middle".
Proof.
  split; [lia|].
  apply (RiemannSum_kinds (fun x => x) 2 0 1). lia.
Defined.

(** ** Exactness and the closed form *)

(** C7: over exact arithmetic, for every [N >= 1] and bounds [a <= b], the
    trapezoidal rule returns exactly the integral of [f] over [[a, b]] when
    [f] is affine, and [simpson], with [N] even, returns exactly the
    integral when [f] is a polynomial of degree at most three. *)
Theorem trapezoidal_simpson_exact (N : Z) (a b c0 c1 c2 c3 : R) :
  (1 <= N)%Z ->
  a <= b ->
  (exists pr : Riemann_integrable (affine c0 c1) a b,
      trapezoidal (affine c0 c1) N a b = Ok (Fin (RiemannInt pr)))
  /\ (Z.even N = true ->
      exists pr : Riemann_integrable (poly3 c0 c1 c2 c3) a b,
        simpson (poly3 c0 c1 c2 c3) N a b = Ok (Fin (RiemannInt pr))).
Proof.
  intros HN Hab. split.
  - assert (pr : Riemann_integrable (affine c0 c1) a b).
    { apply continuity_implies_RiemannInt; [exact Hab|].
      intros x _. apply affine_continuity. }
    exists pr.
    rewrite trapezoidal_value, trapezoidal_sum_exact by exact HN.
    now rewrite (affine_integral c0 c1 a b pr Hab).
  - intros He.
    assert (pr : Riemann_integrable (poly3 c0 c1 c2 c3) a b).
    { apply continuity_implies_RiemannInt; [exact Hab|].
      intros x _. apply poly3_continuity. }
    exists pr.
    rewrite simpson_value, simpson_sum_exact by exact HN.
    rewrite (poly3_integral c0 c1 c2 c3 a b pr Hab).
    replace (2 * Z.to_nat (N / 2))%nat with (Z.to_nat N)
      by (pose proof (even_half N He); lia).
    now rewrite point_last.
Qed.

Lemma trapezoidal_simpson_exact_witness :
  (1 <= 2)%Z
  /\ 0 <= 1
  /\ (exists pr : Riemann_integrable (affine 1 2) 0 1,
         trapezoidal (affine 1 2) 2 0 1 = Ok (Fin (RiemannInt pr)))
  /\ (Z.even 2 = true ->
      exists pr : Riemann_integrable (poly3 1 2 3 4) 0 1,
        simpson (poly3 1 2 3 4) 2 0 1 = Ok (Fin (RiemannInt pr))).
Proof.
  split; [lia|]. split; [lra|].
  apply (trapezoidal_simpson_exact 2 0 1 1 2 3 4); [lia | lra].
Defined.

(** C8: over exact arithmetic, for every integrand [f], [N >= 1] and bounds
    [a], [b], the pairwise form
    [(step / 2) * sum_{i < N} (f X_i + f X_{i+1})] of the trapezoidal rule,
    which is what [trapezoidal] returns, equals the closed form
    [step * (f X_0 / 2 + f X_1 + ... + f X_{N-1} + f X_N / 2)]. *)
Theorem trapezoidal_closed_form (f : R -> R) (N : Z) (a b : R) :
  (1 <= N)%Z ->
  trapezoidal_pairwise f N a b = trapezoidal_closed f N a b
  /\ trapezoidal f N a b = Ok (Fin (trapezoidal_pairwise f N a b))
  /\ trapezoidal f N a b = Ok (Fin (trapezoidal_closed f N a b)).
Proof.
  intros HN. repeat apply conj.
  - now apply pairwise_closed.
  - now apply trapezoidal_value.
  - rewrite trapezoidal_value by exact HN. now rewrite pairwise_closed.
Qed.

Lemma trapezoidal_closed_form_witness :
  (1 <= 3)%Z
  /\ trapezoidal_pairwise (fun x => x * x) 3 0 1
     = trapezoidal_closed (fun x => x * x) 3 0 1
  /\ trapezoidal (fun x => x * x) 3 0 1
     = Ok (Fin (trapezoidal_pairwise (fun x => x * x) 3 0 1))
  /\ trapezoidal (fun x => x * x) 3 0 1
     = Ok (Fin (trapezoidal_closed (fun x => x * x) 3 0 1)).
Proof.
  split; [lia|].
  apply (trapezoidal_closed_form (fun x => x * x) 3 0 1). lia.
Defined.

(** ** Truncation and the kind selector *)

(** C9: for every odd [N >= 1], [simpson] returns, without error, the
    composite Simpson sum over only the first [2 * (N / 2) = N - 1]
    sub-intervals with step [(b - a) / N]: the result does not depend on
    [f] at the last partition point, so the final sub-interval contributes
    nothing.  Likewise, for [N >= 1] not a multiple of 4, [bode] sums only
    the first [4 * (N / 4) < N] sub-intervals. *)
Theorem simpson_bode_truncate (f : R -> R) (N : Z) (a b : R) :
  (1 <= N)%Z ->
  (Z.odd N = true ->
     simpson f N a b
     = Ok (Fin (Rsum (Z.to_nat (N / 2)) (simpson_panel f N a b)))
     /\ (2 * (N / 2) = N - 1)%Z
     /\ forall g : R -> R,
          (forall i, (i < Z.to_nat N)%nat ->
             g (point a b N i) = f (point a b N i)) ->
          simpson g N a b = simpson f N a b)
  /\ ((N mod 4 <> 0)%Z ->
     bode f N a b
     = Ok (Fin (Rsum (Z.to_nat (N / 4)) (bode_panel f N a b)))
     /\ (4 * (N / 4) < N)%Z
     /\ forall g : R -> R,
          (forall i, (i <= 4 * Z.to_nat (N / 4))%nat ->
             g (point a b N i) = f (point a b N i)) ->
          bode g N a b = bode f N a b).
Proof.
  intros HN. split.
  - intros Ho. pose proof (odd_half N Ho) as Hh. repeat apply conj.
    + now apply simpson_value.
    + exact Hh.
    + intros g E. rewrite !simpson_value by exact HN. do 2 f_equal.
      apply Rsum_ext. intros k Hk. apply simpson_panel_ext.
      intros i Hi. apply E. lia.
  - intros Hm.
    assert (Hq : (4 * (N / 4) < N)%Z).
    { pose proof (Z.div_mod N 4). pose proof (Z.mod_pos_bound N 4). lia. }
    repeat apply conj.
    + now apply bode_value.
    + exact Hq.
    + intros g E. rewrite !bode_value by exact HN. do 2 f_equal.
      apply Rsum_ext. intros k Hk. apply bode_panel_ext.
      intros i Hi. apply E. lia.
Qed.

Lemma simpson_bode_truncate_witness :
  (1 <= 7)%Z
  /\ Z.odd 7 = true
  /\ (7 mod 4 <> 0)%Z
  /\ simpson (fun x => x) 7 0 1
     = Ok (Fin (Rsum (Z.to_nat (7 / 2)) (simpson_panel (fun x => x) 7 0 1)))
  /\ bode (fun x => x) 7 0 1
     = Ok (Fin (Rsum (Z.to_nat (7 / 4)) (bode_panel (fun x => x) 7 0 1))).
Proof.
  assert (H1 : (1 <= 7)%Z) by lia.
  assert (Ho : Z.odd 7 = true) by reflexivity.
  assert (Hm : (7 mod 4 <> 0)%Z) by (cbv; discriminate).
  destruct (simpson_bode_truncate (fun x => x) 7 0 1 H1) as [Hs Hb].
  split; [exact H1|]. split; [exact Ho|]. split; [exact Hm|].
  split; [apply (proj1 (Hs Ho)) | apply (proj1 (Hb Hm))].
Defined.

(** C10: for every kind string whose first character is neither ['l'] nor
    ['r'], [RiemannSum] computes the middle Riemann sum, as it does for
    ["mid"]; the kind is never validated, and the only string that causes a
    kind-related error is the empty one (its first character does not
    exist). *)
Theorem RiemannSum_kind_dispatch (f : R -> R) (N : Z) (a b : R)
    (c : ascii) (s : string) :
  c <> "l"%char ->
  c <> "r"%char ->
  RiemannSum f N a b (String c s) = RiemannSum f N a b "mid"
  /\ (N <> 0%Z ->
      RiemannSum f N a b (String c s)
      = Ok (Fin ((b - a) / IZR N
                 * Rsum (Z.to_nat N)
                     (fun i => f (a + (INR i + 0.5) * ((b - a) / IZR N))))))
  /\ (forall t : string,
        RiemannSum f N a b t = Raise IndexError
        <-> t = EmptyString /\ N <> 0%Z).
Proof.
  intros Hl Hr.
  assert (Ho : kind_offset c = 0.5).
  { unfold kind_offset.
    destruct (Ascii.eqb_spec c "l") as [E|_]; [contradiction|].
    destruct (Ascii.eqb_spec c "r") as [E|_]; [contradiction|]. reflexivity. }
  repeat apply conj.
  - destruct (Z.eq_dec N 0) as [->|HN]; [reflexivity|].
    rewrite !RiemannSum_value by exact HN. now rewrite Ho.
  - intros HN. rewrite RiemannSum_value by exact HN. now rewrite Ho.
  - intros t. split.
    + destruct (Z.eq_dec N 0) as [->|HN].
      * rewrite RiemannSum_zero. discriminate.
      * destruct t as [|c' t']; [now split|].
        rewrite RiemannSum_value by exact HN. discriminate.
    + intros [-> HN]. now apply RiemannSum_empty_kind.
Qed.

Lemma RiemannSum_kind_dispatch_witness :
  "b"%char <> "l"%char
  /\ "b"%char <> "r"%char
  /\ RiemannSum (fun x => x) 4 0 1 "banana" = RiemannSum (fun x => x) 4 0 1 "mid"
  /\ (4%Z <> 0%Z ->
      RiemannSum (fun x => x) 4 0 1 "banana"
      = Ok (Fin ((1 - 0) / IZR 4
                 * Rsum (Z.to_nat 4)
                     (fun i =>
                        (fun x => x) (0 + (INR i + 0.5) * ((1 - 0) / IZR 4))))))
  /\ (forall t : string,
        RiemannSum (fun x => x) 4 0 1 t = Raise IndexError
        <-> t = EmptyString /\ 4%Z <> 0%Z).
Proof.
  split; [discriminate|]. split; [discriminate|].
  apply (RiemannSum_kind_dispatch (fun x => x) 4 0 1 "b" "anana"); discriminate.
Defined.


(** * Further properties of the rules *)

(** ** Finite sums *)

Section Sums.

Lemma half_literal : 0.5 = / 2.
Proof. lra. Qed.

Lemma Rsum_plus (n : nat) (g h : nat -> R) :
  Rsum n (fun i => g i + h i) = Rsum n g + Rsum n h.
Proof. induction n as [|n IH]; simpl; [ring | rewrite IH; ring]. Qed.

Lemma Rsum_minus (n : nat) (g h : nat -> R) :
  Rsum n (fun i => g i - h i) = Rsum n g - Rsum n h.
Proof. induction n as [|n IH]; simpl; [ring | rewrite IH; ring]. Qed.

Lemma Rsum_const (n : nat) (c : R) : Rsum n (fun _ => c) = INR n * c.
Proof.
  induction n as [|n IH]; [simpl; ring|].
  rewrite S_INR. simpl. rewrite IH. ring.
Qed.

Lemma Rsum_double (n : nat) (g : nat -> R) :
  Rsum (2 * n) g = Rsum n (fun k => g (2 * k)%nat + g (2 * k + 1)%nat).
Proof.
  induction n as [|n IH]; [reflexivity|].
  replace (2 * S n)%nat with (S (S (2 * n))) by lia.
  cbn [Rsum]. rewrite IH.
  replace (S (2 * n)) with (2 * n + 1)%nat by lia. ring.
Qed.

Lemma Rsum_shift (n : nat) (u : nat -> R) :
  Rsum n u + u n = u O + Rsum n (fun i => u (S i)).
Proof.
  induction n as [|n IH]; cbn [Rsum]; [ring|].
  rewrite IH. ring.
Qed.

Lemma Rsum_rev (n : nat) (g : nat -> R) :
  Rsum n g = Rsum n (fun i => g (n - 1 - i)%nat).
Proof.
  revert g. induction n as [|n IH]; intros g; [reflexivity|].
  cbn [Rsum]. rewrite Rsum_shift.
  replace (S n - 1 - n)%nat with O by lia.
  rewrite (IH (fun i => g (S i))), Rplus_comm. f_equal.
  apply Rsum_ext. intros i Hi. f_equal. lia.
Qed.

Lemma Rsum_le (n : nat) (g h : nat -> R) :
  (forall i, (i < n)%nat -> g i <= h i) -> Rsum n g <= Rsum n h.
Proof.
  induction n as [|n IH]; intros E; cbn [Rsum]; [lra|].
  apply Rplus_le_compat; [apply IH; auto with arith | apply E; lia].
Qed.

End Sums.

(** ** The rules in terms of the partition *)

Section Values.

Variable f : R -> R.
Variables a b : R.

Lemma RiemannSum_left (N : Z) :
  N <> 0%Z ->
  returns (RiemannSum f N a b "left")
    (step a b N * Rsum (Z.to_nat N) (fun i => f (point a b N i))).
Proof.
  intros HN. unfold returns. rewrite RiemannSum_value by exact HN.
  do 2 f_equal. unfold riemann_formula. f_equal.
  apply Rsum_ext. intros i _. f_equal. unfold point, kind_offset. simpl. ring.
Qed.

Lemma RiemannSum_right (N : Z) :
  N <> 0%Z ->
  returns (RiemannSum f N a b "right")
    (step a b N * Rsum (Z.to_nat N) (fun i => f (point a b N (S i)))).
Proof.
  intros HN. unfold returns. rewrite RiemannSum_value by exact HN.
  do 2 f_equal. unfold riemann_formula. f_equal.
  apply Rsum_ext. intros i _. f_equal. unfold point, kind_offset.
  rewrite S_INR. simpl. ring.
Qed.

Lemma RiemannSum_mid (N : Z) :
  N <> 0%Z ->
  returns (RiemannSum f N a b "mid")
    (step a b N
     * Rsum (Z.to_nat N) (fun i => f (a + (INR i + 0.5) * step a b N))).
Proof.
  intros HN. unfold returns. rewrite RiemannSum_value by exact HN.
  reflexivity.
Qed.

Lemma trapezoidal_returns (N : Z) :
  (1 <= N)%Z -> returns (trapezoidal f N a b) (trapezoidal_pairwise f N a b).
Proof. intros HN. now apply trapezoidal_value. Qed.

Lemma simpson_returns (N : Z) :
  (1 <= N)%Z ->
  returns (simpson f N a b) (Rsum (Z.to_nat (N / 2)) (simpson_panel f N a b)).
Proof. intros HN. now apply simpson_value. Qed.

Lemma bode_returns (N : Z) :
  (1 <= N)%Z ->
  returns (bode f N a b) (Rsum (Z.to_nat (N / 4)) (bode_panel f N a b)).
Proof. intros HN. now apply bode_value. Qed.

End Values.

Lemma returns_inj (r : result pyfloat) (u v : R) :
  returns r u -> returns r v -> u = v.
Proof. unfold returns. intros -> E. now inversion E. Qed.

Section LeftRight.

Variable f : R -> R.
Variables a b : R.
Variable N : Z.

Lemma riemann_formula_left :
  riemann_formula f N a b 0
  = step a b N * Rsum (Z.to_nat N) (fun i => f (point a b N i)).
Proof.
  unfold riemann_formula. f_equal.
  apply Rsum_ext. intros i _. f_equal. unfold point. ring.
Qed.

Lemma riemann_formula_right :
  riemann_formula f N a b 1
  = step a b N * Rsum (Z.to_nat N) (fun i => f (point a b N (S i))).
Proof.
  unfold riemann_formula. f_equal.
  apply Rsum_ext. intros i _. f_equal. unfold point. rewrite S_INR. ring.
Qed.

Lemma right_left_difference :
  (1 <= N)%Z ->
  riemann_formula f N a b 1 - riemann_formula f N a b 0
  = (b - a) / IZR N * (f b - f a).
Proof.
  intros HN. rewrite riemann_formula_left, riemann_formula_right.
  rewrite <- Rmult_minus_distr_l. fold (step a b N). f_equal.
  rewrite <- Rsum_minus.
  rewrite (Rsum_telescope _ (fun i => f (point a b N i))).
  now rewrite point_last, point_first.
Qed.

Lemma trapezoidal_pairwise_mean :
  trapezoidal_pairwise f N a b
  = (riemann_formula f N a b 0 + riemann_formula f N a b 1) / 2.
Proof.
  rewrite riemann_formula_left, riemann_formula_right.
  unfold trapezoidal_pairwise. rewrite Rsum_plus. field.
Qed.

End LeftRight.

(** ** How the rules relate to each other *)

(** X1: the right Riemann sum exceeds the left one by
    [step * (f b - f a)]: the two differ only in their end samples. *)
Theorem right_minus_left (f : R -> R) (N : Z) (a b : R) :
  (1 <= N)%Z ->
  exists l r : R,
    returns (RiemannSum f N a b "left") l
    /\ returns (RiemannSum f N a b "right") r
    /\ r - l = (b - a) / IZR N * (f b - f a).
Proof.
  intros HN. eexists. eexists.
  split; [apply RiemannSum_left; lia|].
  split; [apply RiemannSum_right; lia|].
  rewrite <- Rmult_minus_distr_l. fold (step a b N). f_equal.
  rewrite <- Rsum_minus.
  rewrite (Rsum_telescope _ (fun i => f (point a b N i))).
  now rewrite point_last, point_first.
Qed.

Lemma right_minus_left_witness :
  (1 <= 4)%Z
  /\ exists l r : R,
       returns (RiemannSum (fun x => x * x) 4 0 1 "left") l
       /\ returns (RiemannSum (fun x => x * x) 4 0 1 "right") r
       /\ r - l = (1 - 0) / IZR 4 * ((fun x => x * x) 1 - (fun x => x * x) 0).
Proof.
  split; [lia | apply (right_minus_left (fun x => x * x) 4 0 1); lia].
Defined.

(** X2: the trapezoidal rule is the mean of the left and the right Riemann
    sums on the same subdivision. *)
Theorem trapezoidal_is_mean_of_left_right (f : R -> R) (N : Z) (a b : R) :
  (1 <= N)%Z ->
  exists l r : R,
    returns (RiemannSum f N a b "left") l
    /\ returns (RiemannSum f N a b "right") r
    /\ returns (trapezoidal f N a b) ((l + r) / 2).
Proof.
  intros HN. eexists. eexists.
  split; [apply RiemannSum_left; lia|].
  split; [apply RiemannSum_right; lia|].
  unfold returns. rewrite trapezoidal_value by exact HN. do 2 f_equal.
  unfold trapezoidal_pairwise. rewrite Rsum_plus. field.
Qed.

Lemma trapezoidal_is_mean_of_left_right_witness :
  (1 <= 4)%Z
  /\ exists l r : R,
       returns (RiemannSum (fun x => x * x) 4 0 1 "left") l
       /\ returns (RiemannSum (fun x => x * x) 4 0 1 "right") r
       /\ returns (trapezoidal (fun x => x * x) 4 0 1) ((l + r) / 2).
Proof.
  split; [lia|].
  apply (trapezoidal_is_mean_of_left_right (fun x => x * x) 4 0 1). lia.
Defined.

(** ** Halving the step *)

Section Refinement.

Variables a b : R.
Variable N : Z.
Hypothesis HN : (1 <= N)%Z.

Lemma IZR_pos_count : IZR N <> 0.
Proof. apply not_0_IZR. lia. Qed.

Lemma step_half : step a b (2 * N) = step a b N / 2.
Proof. unfold step. rewrite mult_IZR. field. apply IZR_pos_count. Qed.

Lemma point_even (k : nat) : point a b (2 * N) (2 * k) = point a b N k.
Proof.
  unfold point. rewrite step_half, mult_INR. simpl INR. field.
Qed.

Lemma point_odd (k : nat) :
  point a b (2 * N) (2 * k + 1) = a + (INR k + 0.5) * step a b N.
Proof.
  unfold point. rewrite step_half, plus_INR, mult_INR, half_literal.
  simpl INR. field.
Qed.

Lemma to_nat_double : Z.to_nat (2 * N) = (2 * Z.to_nat N)%nat.
Proof. lia. Qed.

Lemma half_double : (2 * N / 2 = N)%Z.
Proof. rewrite (Z.mul_comm 2 N). apply Z.div_mul. lia. Qed.

Lemma trapezoidal_pairwise_double (f : R -> R) :
  trapezoidal_pairwise f (2 * N) a b
  = (trapezoidal_pairwise f N a b
     + step a b N
       * Rsum (Z.to_nat N) (fun i => f (a + (INR i + 0.5) * step a b N))) / 2.
Proof.
  unfold trapezoidal_pairwise.
  rewrite to_nat_double, Rsum_double, step_half.
  rewrite (Rsum_ext _ _ (fun k =>
             (f (point a b N k) + f (point a b N (S k)))
             + 2 * f (a + (INR k + 0.5) * step a b N))).
  - rewrite Rsum_plus, Rsum_scal. field.
  - intros k _.
    replace (S (2 * k + 1)) with (2 * S k)%nat by lia.
    replace (S (2 * k)) with (2 * k + 1)%nat by lia.
    rewrite !point_even, point_odd. ring.
Qed.

Lemma simpson_sum_double (f : R -> R) :
  Rsum (Z.to_nat N) (simpson_panel f (2 * N) a b)
  = (2 * (step a b N
          * Rsum (Z.to_nat N) (fun i => f (a + (INR i + 0.5) * step a b N)))
     + trapezoidal_pairwise f N a b) / 3.
Proof.
  unfold trapezoidal_pairwise.
  rewrite (Rsum_ext _ _ (fun k =>
             step a b N / 6 * (f (point a b N k) + f (point a b N (S k)))
             + 2 * step a b N / 3 * f (a + (INR k + 0.5) * step a b N))).
  - rewrite Rsum_plus, !Rsum_scal. field.
  - intros k _. unfold simpson_panel.
    replace (2 * k + 2)%nat with (2 * S k)%nat by lia.
    rewrite !point_even, point_odd, step_half. field.
Qed.

End Refinement.

(** X3: doubling the subdivision count of the trapezoidal rule reuses the
    coarse result: the fine value is the mean of the coarse trapezoidal value
    and the middle Riemann sum on the coarse subdivision. *)
Theorem trapezoidal_double (f : R -> R) (N : Z) (a b : R) :
  (1 <= N)%Z ->
  exists t m : R,
    returns (trapezoidal f N a b) t
    /\ returns (RiemannSum f N a b "mid") m
    /\ returns (trapezoidal f (2 * N) a b) ((t + m) / 2).
Proof.
  intros HN. eexists. eexists.
  split; [apply trapezoidal_returns; exact HN|].
  split; [apply RiemannSum_mid; lia|].
  unfold returns. rewrite trapezoidal_value by lia.
  now rewrite trapezoidal_pairwise_double.
Qed.

Lemma trapezoidal_double_witness :
  (1 <= 3)%Z
  /\ exists t m : R,
       returns (trapezoidal (fun x => x * x) 3 0 1) t
       /\ returns (RiemannSum (fun x => x * x) 3 0 1 "mid") m
       /\ returns (trapezoidal (fun x => x * x) (2 * 3) 0 1) ((t + m) / 2).
Proof.
  split; [lia | apply (trapezoidal_double (fun x => x * x) 3 0 1); lia].
Defined.

(** X4: Simpson's rule on [2 N] sub-intervals is the weighted mean
    [(2 m + t) / 3] of the middle Riemann sum [m] and the trapezoidal value
    [t] on [N] sub-intervals. *)
Theorem simpson_from_mid_and_trapezoidal (f : R -> R) (N : Z) (a b : R) :
  (1 <= N)%Z ->
  exists t m : R,
    returns (trapezoidal f N a b) t
    /\ returns (RiemannSum f N a b "mid") m
    /\ returns (simpson f (2 * N) a b) ((2 * m + t) / 3).
Proof.
  intros HN. eexists. eexists.
  split; [apply trapezoidal_returns; exact HN|].
  split; [apply RiemannSum_mid; lia|].
  unfold returns. rewrite simpson_value by lia.
  rewrite half_double by exact HN.
  now rewrite simpson_sum_double.
Qed.

Lemma simpson_from_mid_and_trapezoidal_witness :
  (1 <= 3)%Z
  /\ exists t m : R,
       returns (trapezoidal (fun x => x * x) 3 0 1) t
       /\ returns (RiemannSum (fun x => x * x) 3 0 1 "mid") m
       /\ returns (simpson (fun x => x * x) (2 * 3) 0 1) ((2 * m + t) / 3).
Proof.
  split; [lia|].
  apply (simpson_from_mid_and_trapezoidal (fun x => x * x) 3 0 1). lia.
Defined.

(** X5: Simpson's rule is the Richardson extrapolation of the trapezoidal rule:
    on [2 N] sub-intervals it returns [(4 t2 - t1) / 3], where [t1] and [t2]
    are the trapezoidal values on [N] and on [2 N] sub-intervals. *)
Theorem simpson_extrapolates_trapezoidal (f : R -> R) (N : Z) (a b : R) :
  (1 <= N)%Z ->
  exists t1 t2 : R,
    returns (trapezoidal f N a b) t1
    /\ returns (trapezoidal f (2 * N) a b) t2
    /\ returns (simpson f (2 * N) a b) ((4 * t2 - t1) / 3).
Proof.
  intros HN. eexists. eexists.
  split; [apply trapezoidal_returns; exact HN|].
  split; [apply trapezoidal_returns; lia|].
  unfold returns. rewrite simpson_value by lia.
  rewrite half_double by exact HN.
  rewrite simpson_sum_double, trapezoidal_pairwise_double by exact HN.
  do 2 f_equal. field.
Qed.

Lemma simpson_extrapolates_trapezoidal_witness :
  (1 <= 3)%Z
  /\ exists t1 t2 : R,
       returns (trapezoidal (fun x => x * x) 3 0 1) t1
       /\ returns (trapezoidal (fun x => x * x) (2 * 3) 0 1) t2
       /\ returns (simpson (fun x => x * x) (2 * 3) 0 1) ((4 * t2 - t1) / 3).
Proof.
  split; [lia|].
  apply (simpson_extrapolates_trapezoidal (fun x => x * x) 3 0 1). lia.
Defined.

Section Quartering.

Variables a b : R.
Variable N : Z.
Hypothesis HN : (1 <= N)%Z.

Lemma step_quarter : step a b (2 * N) = 2 * step a b (4 * N).
Proof.
  unfold step. rewrite !mult_IZR. field. apply not_0_IZR. lia.
Qed.

Lemma point_coarse (j : nat) :
  point a b (2 * N) j = point a b (4 * N) (2 * j).
Proof.
  unfold point. rewrite step_quarter, mult_INR. simpl INR. ring.
Qed.

Lemma bode_panel_extrapolated (f : R -> R) (k : nat) :
  bode_panel f (4 * N) a b k
  = 16 / 15 * (simpson_panel f (4 * N) a b (2 * k)
               + simpson_panel f (4 * N) a b (2 * k + 1))
    + (- 1 / 15) * simpson_panel f (2 * N) a b k.
Proof.
  unfold bode_panel, simpson_panel.
  rewrite !point_coarse, step_quarter.
  replace (2 * (2 * k))%nat with (4 * k)%nat by lia.
  replace (2 * (2 * k + 1))%nat with (4 * k + 2)%nat by lia.
  replace (2 * (2 * k + 2))%nat with (4 * k + 4)%nat by lia.
  replace (4 * k + 2 + 1)%nat with (4 * k + 3)%nat by lia.
  replace (4 * k + 2 + 2)%nat with (4 * k + 4)%nat by lia.
  field.
Qed.

Lemma bode_sum_extrapolated (f : R -> R) :
  Rsum (Z.to_nat N) (bode_panel f (4 * N) a b)
  = (16 * Rsum (2 * Z.to_nat N) (simpson_panel f (4 * N) a b)
     - Rsum (Z.to_nat N) (simpson_panel f (2 * N) a b)) / 15.
Proof.
  rewrite (Rsum_ext _ _ _ (fun k _ => bode_panel_extrapolated f k)).
  rewrite Rsum_plus, !Rsum_scal, Rsum_double. field.
Qed.

End Quartering.

(** X6: Bode's rule is the Richardson extrapolation of Simpson's rule: on
    [4 N] sub-intervals it returns [(16 s2 - s1) / 15], where [s1] and [s2]
    are the Simpson values on [2 N] and on [4 N] sub-intervals. *)
Theorem bode_extrapolates_simpson (f : R -> R) (N : Z) (a b : R) :
  (1 <= N)%Z ->
  exists s1 s2 : R,
    returns (simpson f (2 * N) a b) s1
    /\ returns (simpson f (4 * N) a b) s2
    /\ returns (bode f (4 * N) a b) ((16 * s2 - s1) / 15).
Proof.
  intros HN. eexists. eexists.
  split; [apply simpson_returns; lia|].
  split; [apply simpson_returns; lia|].
  unfold returns. rewrite bode_value by lia.
  replace (Z.to_nat (4 * N / 4)) with (Z.to_nat N)
    by (rewrite (Z.mul_comm 4 N), Z.div_mul by lia; reflexivity).
  replace (Z.to_nat (4 * N / 2)) with (2 * Z.to_nat N)%nat
    by (replace (4 * N)%Z with (2 * N * 2)%Z by lia;
        rewrite Z.div_mul by lia; lia).
  rewrite half_double by exact HN.
  now rewrite bode_sum_extrapolated.
Qed.

Lemma bode_extrapolates_simpson_witness :
  (1 <= 2)%Z
  /\ exists s1 s2 : R,
       returns (simpson (fun x => x * x) (2 * 2) 0 1) s1
       /\ returns (simpson (fun x => x * x) (4 * 2) 0 1) s2
       /\ returns (bode (fun x => x * x) (4 * 2) 0 1) ((16 * s2 - s1) / 15).
Proof.
  split; [lia | apply (bode_extrapolates_simpson (fun x => x * x) 2 0 1); lia].
Defined.

(** ** Linearity and constant integrands *)

Section Linearity.

Variables f g : R -> R.
Variables al be : R.
Variables a b : R.
Variable N : Z.

Lemma riemann_formula_linear (o : R) :
  riemann_formula (fun x => al * f x + be * g x) N a b o
  = al * riemann_formula f N a b o + be * riemann_formula g N a b o.
Proof.
  unfold riemann_formula. rewrite Rsum_plus, !Rsum_scal. ring.
Qed.

Lemma trapezoidal_pairwise_linear :
  trapezoidal_pairwise (fun x => al * f x + be * g x) N a b
  = al * trapezoidal_pairwise f N a b + be * trapezoidal_pairwise g N a b.
Proof.
  unfold trapezoidal_pairwise.
  rewrite (Rsum_ext _ _ (fun i =>
             al * (f (point a b N i) + f (point a b N (S i)))
             + be * (g (point a b N i) + g (point a b N (S i)))))
    by (intros; ring).
  rewrite Rsum_plus, !Rsum_scal. field.
Qed.

Lemma simpson_sum_linear (m : nat) :
  Rsum m (simpson_panel (fun x => al * f x + be * g x) N a b)
  = al * Rsum m (simpson_panel f N a b) + be * Rsum m (simpson_panel g N a b).
Proof.
  rewrite <- !Rsum_scal, <- Rsum_plus. apply Rsum_ext.
  intros k _. unfold simpson_panel. field.
Qed.

Lemma bode_sum_linear (m : nat) :
  Rsum m (bode_panel (fun x => al * f x + be * g x) N a b)
  = al * Rsum m (bode_panel f N a b) + be * Rsum m (bode_panel g N a b).
Proof.
  rewrite <- !Rsum_scal, <- Rsum_plus. apply Rsum_ext.
  intros k _. unfold bode_panel. field.
Qed.

End Linearity.

(** X7: every rule is linear in the integrand: on [al * f + be * g] it returns
    [al * u + be * v], where [u] and [v] are its values on [f] and on [g]
    (any non-empty kind and [N <> 0] for the Riemann sum, [N >= 1] for the
    other rules, also when [simpson] or [bode] truncate). *)
Theorem rules_linear (f g : R -> R) (al be : R) (N : Z) (a b : R)
    (c : ascii) (t : string) :
  (1 <= N)%Z ->
  (exists u v : R,
      returns (RiemannSum f N a b (String c t)) u
      /\ returns (RiemannSum g N a b (String c t)) v
      /\ returns (RiemannSum (fun x => al * f x + be * g x) N a b (String c t))
           (al * u + be * v))
  /\ (exists u v : R,
      returns (trapezoidal f N a b) u
      /\ returns (trapezoidal g N a b) v
      /\ returns (trapezoidal (fun x => al * f x + be * g x) N a b)
           (al * u + be * v))
  /\ (exists u v : R,
      returns (simpson f N a b) u
      /\ returns (simpson g N a b) v
      /\ returns (simpson (fun x => al * f x + be * g x) N a b)
           (al * u + be * v))
  /\ (exists u v : R,
      returns (bode f N a b) u
      /\ returns (bode g N a b) v
      /\ returns (bode (fun x => al * f x + be * g x) N a b)
           (al * u + be * v)).
Proof.
  intros HN. unfold returns. repeat apply conj.
  - do 2 eexists. rewrite !RiemannSum_value by lia.
    repeat split. now rewrite riemann_formula_linear.
  - do 2 eexists. rewrite !trapezoidal_value by lia.
    repeat split. now rewrite trapezoidal_pairwise_linear.
  - do 2 eexists. rewrite !simpson_value by lia.
    repeat split. now rewrite simpson_sum_linear.
  - do 2 eexists. rewrite !bode_value by lia.
    repeat split. now rewrite bode_sum_linear.
Qed.

Lemma rules_linear_witness :
  (1 <= 3)%Z
  /\ exists u v : R,
       returns (simpson (fun x => x) 3 0 1) u
       /\ returns (simpson (fun x => x * x) 3 0 1) v
       /\ returns (simpson (fun x => 2 * x + 5 * (x * x)) 3 0 1)
            (2 * u + 5 * v).
Proof.
  split; [lia|].
  apply (rules_linear (fun x => x) (fun x => x * x) 2 5 3 0 1 "m" "id"). lia.
Defined.



(** ** Exchanging the bounds *)

Section Reversal.

Variable f : R -> R.
Variables a b : R.
Variable N : Z.
Hypothesis HN : (1 <= N)%Z.

Lemma step_swap : step b a N = - step a b N.
Proof. unfold step. field. apply not_0_IZR. lia. Qed.

Lemma point_swap (i : nat) :
  (i <= Z.to_nat N)%nat -> point b a N i = point a b N (Z.to_nat N - i).
Proof.
  intros Hi. unfold point. rewrite step_swap, minus_INR by exact Hi.
  rewrite INR_IZR_INZ with (n := Z.to_nat N), Z2Nat.id by lia.
  unfold step. field. apply not_0_IZR. lia.
Qed.

Lemma trapezoidal_pairwise_swap :
  trapezoidal_pairwise f N b a = - trapezoidal_pairwise f N a b.
Proof.
  unfold trapezoidal_pairwise. rewrite step_swap.
  rewrite (Rsum_rev _ (fun i => f (point a b N i) + f (point a b N (S i)))).
  rewrite (Rsum_ext _ _
             (fun i => f (point a b N (S (Z.to_nat N - 1 - i)))
                       + f (point a b N (Z.to_nat N - 1 - i)))).
  - rewrite (Rsum_ext _ (fun i => f (point a b N (Z.to_nat N - 1 - i))
                                  + f (point a b N (S (Z.to_nat N - 1 - i))))
               (fun i => f (point a b N (S (Z.to_nat N - 1 - i)))
                         + f (point a b N (Z.to_nat N - 1 - i))))
      by (intros; ring).
    field.
  - intros i Hi. rewrite !point_swap by lia.
    replace (Z.to_nat N - i)%nat with (S (Z.to_nat N - 1 - i)) by lia.
    replace (Z.to_nat N - S i)%nat with (Z.to_nat N - 1 - i)%nat by lia.
    reflexivity.
Qed.

Lemma riemann_formula_swap (o : R) :
  riemann_formula f N b a o = - riemann_formula f N a b (1 - o).
Proof.
  unfold riemann_formula. rewrite step_swap.
  rewrite (Rsum_rev _ (fun i => f (a + (INR i + (1 - o)) * step a b N))).
  rewrite (Rsum_ext _ (fun i => f (b + (INR i + o) * - step a b N))
             (fun i => f (a + (INR (Z.to_nat N - 1 - i) + (1 - o))
                            * step a b N))).
  - ring.
  - intros i Hi. f_equal. rewrite !minus_INR by lia.
    rewrite INR_IZR_INZ with (n := Z.to_nat N), Z2Nat.id by lia.
    unfold step. simpl INR. field. apply not_0_IZR. lia.
Qed.

Lemma simpson_sum_swap (m : nat) :
  (2 * m = Z.to_nat N)%nat ->
  Rsum m (simpson_panel f N b a) = - Rsum m (simpson_panel f N a b).
Proof.
  intros Hm. rewrite (Rsum_rev m (simpson_panel f N a b)).
  replace (- Rsum m (fun i => simpson_panel f N a b (m - 1 - i)))
    with (-1 * Rsum m (fun i => simpson_panel f N a b (m - 1 - i))) by ring.
  rewrite <- Rsum_scal. apply Rsum_ext. intros k Hk.
  unfold simpson_panel. rewrite step_swap, !point_swap by lia.
  replace (Z.to_nat N - 2 * k)%nat with (2 * (m - 1 - k) + 2)%nat by lia.
  replace (Z.to_nat N - (2 * k + 1))%nat with (2 * (m - 1 - k) + 1)%nat by lia.
  replace (Z.to_nat N - (2 * k + 2))%nat with (2 * (m - 1 - k))%nat by lia.
  field.
Qed.

Lemma bode_sum_swap (m : nat) :
  (4 * m = Z.to_nat N)%nat ->
  Rsum m (bode_panel f N b a) = - Rsum m (bode_panel f N a b).
Proof.
  intros Hm. rewrite (Rsum_rev m (bode_panel f N a b)).
  replace (- Rsum m (fun i => bode_panel f N a b (m - 1 - i)))
    with (-1 * Rsum m (fun i => bode_panel f N a b (m - 1 - i))) by ring.
  rewrite <- Rsum_scal. apply Rsum_ext. intros k Hk.
  unfold bode_panel. rewrite step_swap, !point_swap by lia.
  replace (Z.to_nat N - 4 * k)%nat with (4 * (m - 1 - k) + 4)%nat by lia.
  replace (Z.to_nat N - (4 * k + 1))%nat with (4 * (m - 1 - k) + 3)%nat by lia.
  replace (Z.to_nat N - (4 * k + 2))%nat with (4 * (m - 1 - k) + 2)%nat by lia.
  replace (Z.to_nat N - (4 * k + 3))%nat with (4 * (m - 1 - k) + 1)%nat by lia.
  replace (Z.to_nat N - (4 * k + 4))%nat with (4 * (m - 1 - k))%nat by lia.
  field.
Qed.

End Reversal.

(** X9: exchanging the bounds negates the trapezoidal value and the middle
    Riemann sum, and turns the left Riemann sum into minus the right one:
    with [a > b] the rules compute the signed integral. *)
Theorem swapped_bounds (f : R -> R) (N : Z) (a b : R) :
  (1 <= N)%Z ->
  exists t m l r : R,
    returns (trapezoidal f N a b) t
    /\ returns (RiemannSum f N a b "mid") m
    /\ returns (RiemannSum f N a b "left") l
    /\ returns (RiemannSum f N a b "right") r
    /\ returns (trapezoidal f N b a) (- t)
    /\ returns (RiemannSum f N b a "mid") (- m)
    /\ returns (RiemannSum f N b a "left") (- r)
    /\ returns (RiemannSum f N b a "right") (- l).
Proof.
  intros HN. unfold returns.
  exists (trapezoidal_pairwise f N a b), (riemann_formula f N a b 0.5),
    (riemann_formula f N a b 0), (riemann_formula f N a b 1).
  rewrite !trapezoidal_value, !RiemannSum_value by lia.
  change (kind_offset "m") with 0.5.
  change (kind_offset "l") with 0.
  change (kind_offset "r") with 1.
  rewrite (trapezoidal_pairwise_swap f a b N HN).
  rewrite !(riemann_formula_swap f a b N HN).
  replace (1 - 0.5) with 0.5 by lra.
  replace (1 - 0) with 1 by lra.
  replace (1 - 1) with 0 by lra.
  repeat split.
Qed.

Lemma swapped_bounds_witness :
  (1 <= 3)%Z
  /\ exists t m l r : R,
       returns (trapezoidal (fun x => x * x) 3 0 1) t
       /\ returns (RiemannSum (fun x => x * x) 3 0 1 "mid") m
       /\ returns (RiemannSum (fun x => x * x) 3 0 1 "left") l
       /\ returns (RiemannSum (fun x => x * x) 3 0 1 "right") r
       /\ returns (trapezoidal (fun x => x * x) 3 1 0) (- t)
       /\ returns (RiemannSum (fun x => x * x) 3 1 0 "mid") (- m)
       /\ returns (RiemannSum (fun x => x * x) 3 1 0 "left") (- r)
       /\ returns (RiemannSum (fun x => x * x) 3 1 0 "right") (- l).
Proof.
  split; [lia | apply (swapped_bounds (fun x => x * x) 3 0 1); lia].
Defined.

(** X10: exchanging the bounds negates the value of [simpson] when [N] is even
    and the value of [bode] when [N] is a multiple of 4, the cases in which
    the whole partition is used. *)
Theorem swapped_bounds_simpson_bode (f : R -> R) (N : Z) (a b : R) :
  (1 <= N)%Z ->
  (Z.even N = true ->
     exists s : R,
       returns (simpson f N a b) s /\ returns (simpson f N b a) (- s))
  /\ ((N mod 4 = 0)%Z ->
     exists s : R,
       returns (bode f N a b) s /\ returns (bode f N b a) (- s)).
Proof.
  intros HN. unfold returns. split.
  - intros He. pose proof (even_half N He) as Hh. eexists.
    rewrite !simpson_value by lia. split; [reflexivity|].
    rewrite simpson_sum_swap; [reflexivity | exact HN | lia].
  - intros Hm.
    assert (Hq : (4 * (N / 4) = N)%Z) by (pose proof (Z.div_mod N 4); lia).
    eexists. rewrite !bode_value by lia. split; [reflexivity|].
    rewrite bode_sum_swap; [reflexivity | exact HN | lia].
Qed.

Lemma swapped_bounds_simpson_bode_witness :
  (1 <= 4)%Z
  /\ (Z.even 4 = true ->
        exists s : R,
          returns (simpson (fun x => x * x) 4 0 1) s
          /\ returns (simpson (fun x => x * x) 4 1 0) (- s))
  /\ ((4 mod 4 = 0)%Z ->
        exists s : R,
          returns (bode (fun x => x * x) 4 0 1) s
          /\ returns (bode (fun x => x * x) 4 1 0) (- s)).
Proof.
  split; [lia|].
  apply (swapped_bounds_simpson_bode (fun x => x * x) 4 0 1). lia.
Defined.

(** ** Failures, degenerate intervals and shifted integrands *)

Section Outcomes.

Variable f : R -> R.
Variables a b : R.

(** The three rules built on [np.linspace] behave alike on each range of
    subdivision counts. *)
Lemma linspace_rules_cases (N : Z) :
  ((1 <= N)%Z
   /\ (exists v, trapezoidal f N a b = Ok (Fin v))
   /\ (exists v, simpson f N a b = Ok (Fin v))
   /\ (exists v, bode f N a b = Ok (Fin v)))
  \/ ((N = 0 \/ N = -1)%Z
      /\ trapezoidal f N a b = Ok NaN
      /\ simpson f N a b = Ok (Fin 0)
      /\ bode f N a b = Ok (Fin 0))
  \/ ((N <= -2)%Z
      /\ trapezoidal f N a b = Raise ValueError
      /\ simpson f N a b = Raise ValueError
      /\ bode f N a b = Raise ValueError).
Proof.
  destruct (Z_le_gt_dec 1 N) as [H1|H1].
  - left. split; [exact H1|].
    rewrite trapezoidal_value, simpson_value, bode_value by exact H1.
    repeat split; eauto.
  - destruct (Z_le_gt_dec N (-2)) as [H2|H2].
    + right. right. split; [exact H2|]. now apply linspace_rules_refuse.
    + right. left. assert (N = 0 \/ N = -1)%Z as [-> | ->] by lia;
        (split; [lia | repeat split; reflexivity]).
Qed.

End Outcomes.

(** X11: for every subdivision count, [trapezoidal], [simpson] and [bode] raise
    exactly when [N <= -2], and [RiemannSum] raises exactly when [N = 0] or
    the kind is empty.  The element accesses [X[..]] of [simpson] and [bode]
    never leave the [N + 1] points: no call raises an index error. *)
Theorem failure_cases (f : R -> R) (N : Z) (a b : R) (t : string) :
  (fails (RiemannSum f N a b t) <-> N = 0%Z \/ t = EmptyString)
  /\ (fails (trapezoidal f N a b) <-> (N <= -2)%Z)
  /\ (fails (simpson f N a b) <-> (N <= -2)%Z)
  /\ (fails (bode f N a b) <-> (N <= -2)%Z)
  /\ simpson f N a b <> Raise IndexError
  /\ bode f N a b <> Raise IndexError.
Proof.
  split.
  - destruct (Z.eq_dec N 0) as [->|HN].
    + rewrite RiemannSum_zero. simpl. tauto.
    + destruct t as [|c t'].
      * rewrite RiemannSum_empty_kind by exact HN. simpl. tauto.
      * rewrite RiemannSum_value by exact HN. simpl.
        split; [tauto | intros [E|E]; [contradiction | discriminate]].
  - destruct (linspace_rules_cases f a b N)
      as [(H & (v1 & E1) & (v2 & E2) & (v3 & E3))
         | [(H & E1 & E2 & E3) | (H & E1 & E2 & E3)]];
      rewrite E1, E2, E3; simpl;
      repeat split; try tauto; try lia; try discriminate.
Qed.

(** X12: on an interval reduced to a point every rule returns [0], for every
    [N >= 1] and every non-empty kind. *)
Theorem degenerate_interval (f : R -> R) (N : Z) (a : R) (c : ascii)
    (t : string) :
  (1 <= N)%Z ->
  returns (RiemannSum f N a a (String c t)) 0
  /\ returns (trapezoidal f N a a) 0
  /\ returns (simpson f N a a) 0
  /\ returns (bode f N a a) 0.
Proof.
  intros HN. unfold returns.
  assert (Hs : step a a N = 0).
  { unfold step. field. apply not_0_IZR. lia. }
  rewrite RiemannSum_value, trapezoidal_value, simpson_value, bode_value
    by lia.
  repeat split; do 2 f_equal.
  - unfold riemann_formula. rewrite Hs. ring.
  - unfold trapezoidal_pairwise. rewrite Hs. field.
  - rewrite (Rsum_ext _ _ (fun _ => 0)).
    + rewrite Rsum_const. ring.
    + intros k _. unfold simpson_panel. rewrite Hs. field.
  - rewrite (Rsum_ext _ _ (fun _ => 0)).
    + rewrite Rsum_const. ring.
    + intros k _. unfold bode_panel. rewrite Hs. field.
Qed.

Lemma degenerate_interval_witness :
  (1 <= 5)%Z
  /\ returns (RiemannSum (fun x => x * x) 5 2 2 "left") 0
  /\ returns (trapezoidal (fun x => x * x) 5 2 2) 0
  /\ returns (simpson (fun x => x * x) 5 2 2) 0
  /\ returns (bode (fun x => x * x) 5 2 2) 0.
Proof.
  split; [lia | apply (degenerate_interval (fun x => x * x) 5 2 "l" "eft"); lia].
Defined.

Section Translation.

Variable f : R -> R.
Variable d : R.
Variables a b : R.
Variable N : Z.

Lemma step_shift : step (a + d) (b + d) N = step a b N.
Proof. unfold step. f_equal. ring. Qed.

Lemma point_shift (i : nat) :
  point (a + d) (b + d) N i = point a b N i + d.
Proof. unfold point. rewrite step_shift. ring. Qed.

End Translation.

(** X13: shifting the integrand and the interval together changes nothing:
    every rule gives the same outcome on [x |-> f (x + d)] over [[a, b]] as
    on [f] over [[a + d, b + d]], whatever the subdivision count and the
    kind. *)
Theorem shifted_integrand (f : R -> R) (d : R) (N : Z) (a b : R)
    (t : string) :
  RiemannSum (fun x => f (x + d)) N a b t = RiemannSum f N (a + d) (b + d) t
  /\ trapezoidal (fun x => f (x + d)) N a b = trapezoidal f N (a + d) (b + d)
  /\ simpson (fun x => f (x + d)) N a b = simpson f N (a + d) (b + d)
  /\ bode (fun x => f (x + d)) N a b = bode f N (a + d) (b + d).
Proof.
  split.
  - destruct (Z.eq_dec N 0) as [->|HN]; [reflexivity|].
    destruct t as [|c t']; [now rewrite !RiemannSum_empty_kind|].
    rewrite !RiemannSum_value by exact HN. do 2 f_equal.
    unfold riemann_formula. rewrite step_shift. f_equal.
    apply Rsum_ext. intros i _. f_equal. ring.
  - destruct (Z_le_gt_dec 1 N) as [H1|H1].
    + rewrite !trapezoidal_value, !simpson_value, !bode_value by exact H1.
      repeat split; do 2 f_equal.
      * unfold trapezoidal_pairwise. rewrite step_shift. f_equal.
        apply Rsum_ext. intros i _. now rewrite !point_shift.
      * apply Rsum_ext. intros k _. unfold simpson_panel.
        now rewrite step_shift, !point_shift.
      * apply Rsum_ext. intros k _. unfold bode_panel.
        now rewrite step_shift, !point_shift.
    + destruct (Z_le_gt_dec N (-2)) as [H2|H2].
      * destruct (linspace_rules_refuse f (a + d) (b + d) N H2)
          as (-> & -> & ->).
        destruct (linspace_rules_refuse (fun x => f (x + d)) a b N H2)
          as (-> & -> & ->).
        repeat split.
      * assert (N = 0 \/ N = -1)%Z as [-> | ->] by lia;
          repeat split; reflexivity.
Qed.

(** ** Orders of accuracy, on polynomials *)

Section PolynomialIntegrals.

Variables c0 c1 c2 c3 c4 c5 c6 : R.

Lemma poly6_continuity : continuity (poly6 c0 c1 c2 c3 c4 c5 c6).
Proof. unfold poly6. reg. Qed.

Lemma poly6_prim_derivable : derivable (poly6_prim c0 c1 c2 c3 c4 c5 c6).
Proof. unfold poly6_prim. reg. Qed.

Lemma poly6_prim_derive (x : R) :
  derive_pt (poly6_prim c0 c1 c2 c3 c4 c5 c6) x (poly6_prim_derivable x)
  = poly6 c0 c1 c2 c3 c4 c5 c6 x.
Proof. unfold poly6_prim, poly6. cbn [pow]. reg. cbn [pow]. field. Qed.

Lemma poly6_integrable (a b : R) :
  a <= b -> Riemann_integrable (poly6 c0 c1 c2 c3 c4 c5 c6) a b.
Proof.
  intros Hab. apply continuity_implies_RiemannInt; [exact Hab|].
  intros x _. apply poly6_continuity.
Qed.

Lemma poly6_integral (a b : R)
    (pr : Riemann_integrable (poly6 c0 c1 c2 c3 c4 c5 c6) a b) :
  a <= b ->
  RiemannInt pr
  = poly6_prim c0 c1 c2 c3 c4 c5 c6 b - poly6_prim c0 c1 c2 c3 c4 c5 c6 a.
Proof.
  intros Hab. apply RiemannInt_antiderivative; [exact Hab | |].
  - intros x _. apply poly6_continuity.
  - split; [|exact Hab]. intros x _.
    exists (poly6_prim_derivable x). symmetry. apply poly6_prim_derive.
Qed.

End PolynomialIntegrals.

Section PanelErrors.

Variables a b : R.
Variable N : Z.

Lemma point_offset (i j : nat) :
  point a b N (i + j) = point a b N i + INR j * step a b N.
Proof. unfold point. rewrite plus_INR. ring. Qed.

(** A sum of increments of [G] with a constant defect [e] per term. *)
Lemma Rsum_telescope_defect (n : nat) (G : nat -> R) (e : R)
    (u : nat -> R) :
  (forall i, (i < n)%nat -> u i = G (S i) - G i + e) ->
  Rsum n u = G n - G O + INR n * e.
Proof.
  intros E.
  rewrite (Rsum_ext _ _ (fun i => (G (S i) - G i) + e)) by exact E.
  now rewrite Rsum_plus, Rsum_telescope, Rsum_const.
Qed.

Lemma simpson_panel_quartic (c0 c1 c2 c3 c4 : R) (k : nat) :
  simpson_panel (poly6 c0 c1 c2 c3 c4 0 0) N a b k
  = poly6_prim c0 c1 c2 c3 c4 0 0 (point a b N (2 * S k))
    - poly6_prim c0 c1 c2 c3 c4 0 0 (point a b N (2 * k))
    + c4 * 4 * step a b N ^ 5 / 15.
Proof.
  unfold simpson_panel.
  replace (2 * S k)%nat with (2 * k + 2)%nat by lia.
  rewrite !point_offset. simpl INR.
  generalize (point a b N (2 * k)) (step a b N). intros x h.
  unfold poly6, poly6_prim. field.
Qed.

Lemma bode_panel_sextic (c0 c1 c2 c3 c4 c5 c6 : R) (k : nat) :
  bode_panel (poly6 c0 c1 c2 c3 c4 c5 c6) N a b k
  = poly6_prim c0 c1 c2 c3 c4 c5 c6 (point a b N (4 * S k))
    - poly6_prim c0 c1 c2 c3 c4 c5 c6 (point a b N (4 * k))
    + c6 * 128 * step a b N ^ 7 / 21.
Proof.
  unfold bode_panel.
  replace (4 * S k)%nat with (4 * k + 4)%nat by lia.
  rewrite !point_offset. simpl INR.
  generalize (point a b N (4 * k)) (step a b N). intros x h.
  unfold poly6, poly6_prim. field.
Qed.

End PanelErrors.

Section ErrorLaws.

Variables a b : R.
Variable N : Z.
Hypothesis HN : (1 <= N)%Z.

Lemma INR_count : INR (Z.to_nat N) = IZR N.
Proof. rewrite INR_IZR_INZ, Z2Nat.id by lia. reflexivity. Qed.

Lemma count_times_step : IZR N * step a b N = b - a.
Proof. unfold step. field. apply not_0_IZR. lia. Qed.

Lemma left_sum_affine (c0 c1 : R) :
  step a b N * Rsum (Z.to_nat N) (fun i => affine c0 c1 (point a b N i))
  = poly3_prim c0 c1 0 0 b - poly3_prim c0 c1 0 0 a
    - c1 * (b - a) ^ 2 / (2 * IZR N).
Proof.
  rewrite <- Rsum_scal.
  rewrite (Rsum_telescope_defect _
             (fun i => poly3_prim c0 c1 0 0 (point a b N i))
             (- c1 * step a b N ^ 2 / 2)).
  - rewrite point_last, point_first, INR_count by exact HN.
    rewrite <- count_times_step. field. apply not_0_IZR. lia.
  - intros i _. replace (S i) with (i + 1)%nat by lia.
    rewrite point_offset. simpl INR.
    generalize (point a b N i) (step a b N). intros x s.
    unfold affine, poly3_prim. field.
Qed.

Lemma right_sum_affine (c0 c1 : R) :
  step a b N * Rsum (Z.to_nat N) (fun i => affine c0 c1 (point a b N (S i)))
  = poly3_prim c0 c1 0 0 b - poly3_prim c0 c1 0 0 a
    + c1 * (b - a) ^ 2 / (2 * IZR N).
Proof.
  rewrite <- Rsum_scal.
  rewrite (Rsum_telescope_defect _
             (fun i => poly3_prim c0 c1 0 0 (point a b N i))
             (c1 * step a b N ^ 2 / 2)).
  - rewrite point_last, point_first, INR_count by exact HN.
    rewrite <- count_times_step. field. apply not_0_IZR. lia.
  - intros i _. replace (S i) with (i + 1)%nat by lia.
    rewrite point_offset. simpl INR.
    generalize (point a b N i) (step a b N). intros x s.
    unfold affine, poly3_prim. field.
Qed.

Lemma mid_sum_quadratic (c0 c1 c2 : R) :
  step a b N
  * Rsum (Z.to_nat N)
      (fun i => poly3 c0 c1 c2 0 (a + (INR i + 0.5) * step a b N))
  = poly3_prim c0 c1 c2 0 b - poly3_prim c0 c1 c2 0 a
    - c2 * (b - a) ^ 3 / (12 * IZR N ^ 2).
Proof.
  rewrite <- Rsum_scal.
  rewrite (Rsum_telescope_defect _
             (fun i => poly3_prim c0 c1 c2 0 (point a b N i))
             (- c2 * step a b N ^ 3 / 12)).
  - rewrite point_last, point_first, INR_count by exact HN.
    rewrite <- count_times_step. field. apply not_0_IZR. lia.
  - intros i _. replace (S i) with (i + 1)%nat by lia.
    rewrite point_offset, half_literal. simpl INR.
    replace (a + (INR i + / 2) * step a b N)
      with (point a b N i + step a b N / 2) by (unfold point; field).
    generalize (point a b N i) (step a b N). intros x s.
    unfold poly3, poly3_prim. field.
Qed.

Lemma trapezoidal_sum_quadratic (c0 c1 c2 : R) :
  trapezoidal_pairwise (poly3 c0 c1 c2 0) N a b
  = poly3_prim c0 c1 c2 0 b - poly3_prim c0 c1 c2 0 a
    + c2 * (b - a) ^ 3 / (6 * IZR N ^ 2).
Proof.
  unfold trapezoidal_pairwise. rewrite <- Rsum_scal.
  rewrite (Rsum_telescope_defect _
             (fun i => poly3_prim c0 c1 c2 0 (point a b N i))
             (c2 * step a b N ^ 3 / 6)).
  - rewrite point_last, point_first, INR_count by exact HN.
    rewrite <- count_times_step. field. apply not_0_IZR. lia.
  - intros i _. replace (S i) with (i + 1)%nat by lia.
    rewrite point_offset. simpl INR.
    generalize (point a b N i) (step a b N). intros x s.
    unfold poly3, poly3_prim. field.
Qed.

Lemma simpson_sum_quartic (c0 c1 c2 c3 c4 : R) :
  Z.even N = true ->
  Rsum (Z.to_nat (N / 2)) (simpson_panel (poly6 c0 c1 c2 c3 c4 0 0) N a b)
  = poly6_prim c0 c1 c2 c3 c4 0 0 b - poly6_prim c0 c1 c2 c3 c4 0 0 a
    + c4 * 2 * (b - a) ^ 5 / (15 * IZR N ^ 4).
Proof.
  intros He. pose proof (even_half N He) as Hh.
  rewrite (Rsum_telescope_defect _
             (fun k => poly6_prim c0 c1 c2 c3 c4 0 0 (point a b N (2 * k)))
             (c4 * 4 * step a b N ^ 5 / 15))
    by (intros; apply simpson_panel_quartic).
  replace (2 * Z.to_nat (N / 2))%nat with (Z.to_nat N) by lia.
  rewrite Nat.mul_0_r, point_last, point_first by exact HN.
  assert (Hm : INR (Z.to_nat (N / 2)) = IZR N / 2).
  { rewrite INR_IZR_INZ, Z2Nat.id by lia.
    rewrite <- Hh at 2. rewrite mult_IZR. field. }
  rewrite Hm, <- count_times_step. field. apply not_0_IZR. lia.
Qed.

Lemma bode_sum_sextic (c0 c1 c2 c3 c4 c5 c6 : R) :
  (N mod 4 = 0)%Z ->
  Rsum (Z.to_nat (N / 4)) (bode_panel (poly6 c0 c1 c2 c3 c4 c5 c6) N a b)
  = poly6_prim c0 c1 c2 c3 c4 c5 c6 b - poly6_prim c0 c1 c2 c3 c4 c5 c6 a
    + c6 * 32 * (b - a) ^ 7 / (21 * IZR N ^ 6).
Proof.
  intros Hmod.
  assert (Hq : (4 * (N / 4) = N)%Z) by (pose proof (Z.div_mod N 4); lia).
  rewrite (Rsum_telescope_defect _
             (fun k => poly6_prim c0 c1 c2 c3 c4 c5 c6 (point a b N (4 * k)))
             (c6 * 128 * step a b N ^ 7 / 21))
    by (intros; apply bode_panel_sextic).
  replace (4 * Z.to_nat (N / 4))%nat with (Z.to_nat N) by lia.
  rewrite Nat.mul_0_r, point_last, point_first by exact HN.
  assert (Hm : INR (Z.to_nat (N / 4)) = IZR N / 4).
  { rewrite INR_IZR_INZ, Z2Nat.id by lia.
    rewrite <- Hq at 2. rewrite mult_IZR. field. }
  rewrite Hm, <- count_times_step. field. apply not_0_IZR. lia.
Qed.

End ErrorLaws.

(** X14: the left and right Riemann sums are first-order accurate: on an affine
    integrand [c0 + c1 x] they miss the integral by exactly
    [c1 (b - a)^2 / (2 N)], from below and from above, while the middle
    Riemann sum is exact. *)
Theorem riemann_first_order (c0 c1 : R) (N : Z) (a b : R) :
  (1 <= N)%Z ->
  a <= b ->
  exists (pr : Riemann_integrable (affine c0 c1) a b) (l r m : R),
    returns (RiemannSum (affine c0 c1) N a b "left") l
    /\ returns (RiemannSum (affine c0 c1) N a b "right") r
    /\ returns (RiemannSum (affine c0 c1) N a b "mid") m
    /\ l - RiemannInt pr = - (c1 * (b - a) ^ 2 / (2 * IZR N))
    /\ r - RiemannInt pr = c1 * (b - a) ^ 2 / (2 * IZR N)
    /\ m = RiemannInt pr.
Proof.
  intros HN Hab.
  assert (pr : Riemann_integrable (affine c0 c1) a b).
  { apply continuity_implies_RiemannInt; [exact Hab|].
    intros x _. apply affine_continuity. }
  exists pr. do 3 eexists.
  split; [apply RiemannSum_left; lia|].
  split; [apply RiemannSum_right; lia|].
  split; [apply RiemannSum_mid; lia|].
  rewrite (affine_integral c0 c1 a b pr Hab).
  rewrite left_sum_affine, right_sum_affine by exact HN.
  rewrite (Rsum_ext _ _ (fun i =>
             poly3 c0 c1 0 0 (a + (INR i + 0.5) * step a b N)))
    by (intros; apply affine_poly3).
  rewrite mid_sum_quadratic by exact HN.
  assert (HN0 : IZR N <> 0) by (apply not_0_IZR; lia).
  repeat split; field; exact HN0.
Qed.

Lemma riemann_first_order_witness :
  (1 <= 4)%Z
  /\ 0 <= 1
  /\ exists (pr : Riemann_integrable (affine 1 2) 0 1) (l r m : R),
       returns (RiemannSum (affine 1 2) 4 0 1 "left") l
       /\ returns (RiemannSum (affine 1 2) 4 0 1 "right") r
       /\ returns (RiemannSum (affine 1 2) 4 0 1 "mid") m
       /\ l - RiemannInt pr = - (2 * (1 - 0) ^ 2 / (2 * IZR 4))
       /\ r - RiemannInt pr = 2 * (1 - 0) ^ 2 / (2 * IZR 4)
       /\ m = RiemannInt pr.
Proof.
  split; [lia|]. split; [lra|].
  apply (riemann_first_order 1 2 4 0 1); [lia | lra].
Defined.

(** X15: the middle Riemann sum and the trapezoidal rule are second-order
    accurate: on a quadratic [c0 + c1 x + c2 x^2] the middle sum misses the
    integral by exactly [- c2 (b - a)^3 / (12 N^2)] and the trapezoidal rule
    by [c2 (b - a)^3 / (6 N^2)], so doubling [N] divides both errors by
    four. *)
Theorem mid_trapezoidal_second_order (c0 c1 c2 : R) (N : Z) (a b : R) :
  (1 <= N)%Z ->
  a <= b ->
  exists (pr : Riemann_integrable (poly3 c0 c1 c2 0) a b) (m t : R),
    returns (RiemannSum (poly3 c0 c1 c2 0) N a b "mid") m
    /\ returns (trapezoidal (poly3 c0 c1 c2 0) N a b) t
    /\ m - RiemannInt pr = - (c2 * (b - a) ^ 3 / (12 * IZR N ^ 2))
    /\ t - RiemannInt pr = c2 * (b - a) ^ 3 / (6 * IZR N ^ 2).
Proof.
  intros HN Hab.
  assert (pr : Riemann_integrable (poly3 c0 c1 c2 0) a b).
  { apply continuity_implies_RiemannInt; [exact Hab|].
    intros x _. apply poly3_continuity. }
  exists pr. do 2 eexists.
  split; [apply RiemannSum_mid; lia|].
  split; [apply trapezoidal_returns; exact HN|].
  rewrite (poly3_integral c0 c1 c2 0 a b pr Hab).
  rewrite mid_sum_quadratic, trapezoidal_sum_quadratic by exact HN.
  assert (HN0 : IZR N <> 0) by (apply not_0_IZR; lia).
  split; field; exact HN0.
Qed.

Lemma mid_trapezoidal_second_order_witness :
  (1 <= 4)%Z
  /\ 0 <= 1
  /\ exists (pr : Riemann_integrable (poly3 1 2 3 0) 0 1) (m t : R),
       returns (RiemannSum (poly3 1 2 3 0) 4 0 1 "mid") m
       /\ returns (trapezoidal (poly3 1 2 3 0) 4 0 1) t
       /\ m - RiemannInt pr = - (3 * (1 - 0) ^ 3 / (12 * IZR 4 ^ 2))
       /\ t - RiemannInt pr = 3 * (1 - 0) ^ 3 / (6 * IZR 4 ^ 2).
Proof.
  split; [lia|]. split; [lra|].
  apply (mid_trapezoidal_second_order 1 2 3 4 0 1); [lia | lra].
Defined.

(** X16: Simpson's rule is fourth-order accurate: with [N] even, on a quartic
    with leading coefficient [c4] it exceeds the integral by exactly
    [2 c4 (b - a)^5 / (15 N^4)], so doubling [N] divides the error by
    sixteen. *)
Theorem simpson_fourth_order (c0 c1 c2 c3 c4 : R) (N : Z) (a b : R) :
  (1 <= N)%Z ->
  Z.even N = true ->
  a <= b ->
  exists (pr : Riemann_integrable (poly6 c0 c1 c2 c3 c4 0 0) a b) (s : R),
    returns (simpson (poly6 c0 c1 c2 c3 c4 0 0) N a b) s
    /\ s - RiemannInt pr = c4 * 2 * (b - a) ^ 5 / (15 * IZR N ^ 4).
Proof.
  intros HN He Hab.
  exists (poly6_integrable c0 c1 c2 c3 c4 0 0 a b Hab). eexists.
  split; [apply simpson_returns; exact HN|].
  rewrite poly6_integral by exact Hab.
  rewrite simpson_sum_quartic by assumption.
  field. apply not_0_IZR. lia.
Qed.

Lemma simpson_fourth_order_witness :
  (1 <= 4)%Z
  /\ Z.even 4 = true
  /\ 0 <= 1
  /\ exists (pr : Riemann_integrable (poly6 1 2 3 4 5 0 0) 0 1) (s : R),
       returns (simpson (poly6 1 2 3 4 5 0 0) 4 0 1) s
       /\ s - RiemannInt pr = 5 * 2 * (1 - 0) ^ 5 / (15 * IZR 4 ^ 4).
Proof.
  split; [lia|]. split; [reflexivity|]. split; [lra|].
  apply (simpson_fourth_order 1 2 3 4 5 4 0 1); [lia | reflexivity | lra].
Defined.

(** X17: Bode's rule is sixth-order accurate: with [N] a multiple of 4, on a
    polynomial of degree six with leading coefficient [c6] it exceeds the
    integral by exactly [32 c6 (b - a)^7 / (21 N^6)]; in particular it is
    exact on every polynomial of degree at most five. *)
Theorem bode_sixth_order (c0 c1 c2 c3 c4 c5 c6 : R) (N : Z) (a b : R) :
  (1 <= N)%Z ->
  (N mod 4 = 0)%Z ->
  a <= b ->
  exists (pr : Riemann_integrable (poly6 c0 c1 c2 c3 c4 c5 c6) a b) (s : R),
    returns (bode (poly6 c0 c1 c2 c3 c4 c5 c6) N a b) s
    /\ s - RiemannInt pr = c6 * 32 * (b - a) ^ 7 / (21 * IZR N ^ 6)
    /\ (c6 = 0 -> s = RiemannInt pr).
Proof.
  intros HN Hm Hab.
  exists (poly6_integrable c0 c1 c2 c3 c4 c5 c6 a b Hab). eexists.
  split; [apply bode_returns; exact HN|].
  rewrite poly6_integral by exact Hab.
  rewrite bode_sum_sextic by assumption.
  assert (HN0 : IZR N <> 0) by (apply not_0_IZR; lia).
  split; [field; exact HN0|].
  intros ->. field. exact HN0.
Qed.

Lemma bode_sixth_order_witness :
  (1 <= 4)%Z
  /\ (4 mod 4 = 0)%Z
  /\ 0 <= 1
  /\ exists (pr : Riemann_integrable (poly6 1 2 3 4 5 6 7) 0 1) (s : R),
       returns (bode (poly6 1 2 3 4 5 6 7) 4 0 1) s
       /\ s - RiemannInt pr = 7 * 32 * (1 - 0) ^ 7 / (21 * IZR 4 ^ 6)
       /\ (7 = 0 -> s = RiemannInt pr).
Proof.
  split; [lia|]. split; [reflexivity|]. split; [lra|].
  apply (bode_sixth_order 1 2 3 4 5 6 7 4 0 1); [lia | reflexivity | lra].
Defined.

(** ** Monotone integrands *)

Section Monotone.

Variable f : R -> R.
Variables a b : R.
Variable N : Z.
Hypothesis HN : (1 <= N)%Z.
Hypothesis Hab : a <= b.
Hypothesis Hmono : forall x y, a <= x -> x <= y -> y <= b -> f x <= f y.

Lemma step_nonneg : 0 <= step a b N.
Proof.
  unfold step. apply Rmult_le_pos; [lra|].
  left. apply Rinv_0_lt_compat. apply IZR_lt. lia.
Qed.

Lemma point_le (i j : nat) :
  (i <= j)%nat -> point a b N i <= point a b N j.
Proof.
  intros Hij. unfold point. apply Rplus_le_compat_l.
  apply Rmult_le_compat_r; [apply step_nonneg | now apply le_INR].
Qed.

Lemma point_in_interval (i : nat) :
  (i <= Z.to_nat N)%nat -> a <= point a b N i <= b.
Proof.
  intros Hi. split.
  - rewrite <- (point_first a b N) at 1. apply point_le. lia.
  - rewrite <- (point_last a b N HN) at 2. now apply point_le.
Qed.

Lemma piece_between (x y : R) (pr : Riemann_integrable f x y) :
  a <= x -> x <= y -> y <= b ->
  f x * (y - x) <= RiemannInt pr <= f y * (y - x).
Proof.
  intros Hax Hxy Hyb. split.
  - rewrite <- (RiemannInt_P15 (RiemannInt_P14 x y (f x))).
    apply RiemannInt_P19; [exact Hxy|].
    intros z Hz. unfold fct_cte. apply Hmono; lra.
  - rewrite <- (RiemannInt_P15 (RiemannInt_P14 x y (f y))).
    apply RiemannInt_P19; [exact Hxy|].
    intros z Hz. unfold fct_cte. apply Hmono; lra.
Qed.

Lemma integral_between_partial_sums (k : nat) :
  (k <= Z.to_nat N)%nat ->
  forall (c : R) (pr : Riemann_integrable f a c),
    c = point a b N k ->
    step a b N * Rsum k (fun i => f (point a b N i)) <= RiemannInt pr
    /\ RiemannInt pr <= step a b N * Rsum k (fun i => f (point a b N (S i))).
Proof.
  induction k as [|k IH]; intros Hk c pr Hc.
  - rewrite point_first in Hc. subst c.
    rewrite RiemannInt_P9. simpl. lra.
  - pose proof (point_in_interval k ltac:(lia)) as [Hak Hkb].
    pose proof (point_in_interval (S k) Hk) as [HaS HSb].
    pose proof (point_le k (S k) ltac:(lia)) as HkS.
    subst c.
    assert (Hin : a <= point a b N k <= point a b N (S k)) by lra.
    pose (pr1 := RiemannInt_P22 pr Hin).
    pose (pr2 := RiemannInt_P23 pr Hin).
    pose proof (RiemannInt_P26 pr1 pr2 pr) as Hsum.
    destruct (IH ltac:(lia) _ pr1 eq_refl) as [IHl IHr].
    destruct (piece_between _ _ pr2 Hak HkS HSb) as [Pl Pr].
    assert (Hd : point a b N (S k) - point a b N k = step a b N).
    { replace (S k) with (k + 1)%nat by lia.
      rewrite point_offset. simpl INR. ring. }
    rewrite Hd in Pl, Pr. cbn [Rsum]. lra.
Qed.

Lemma mid_sample_between (i : nat) :
  (i < Z.to_nat N)%nat ->
  f (point a b N i) <= f (a + (INR i + 0.5) * step a b N)
  /\ f (a + (INR i + 0.5) * step a b N) <= f (point a b N (S i)).
Proof.
  intros Hi.
  pose proof (point_in_interval i ltac:(lia)) as [Hai _].
  pose proof (point_in_interval (S i) ltac:(lia)) as [_ HSb].
  pose proof step_nonneg as Hs.
  assert (Hm : a + (INR i + 0.5) * step a b N
               = point a b N i + step a b N / 2).
  { unfold point. rewrite half_literal. field. }
  assert (HS : point a b N (S i) = point a b N i + step a b N).
  { replace (S i) with (i + 1)%nat by lia.
    rewrite point_offset. simpl INR. ring. }
  rewrite Hm. split; apply Hmono; lra.
Qed.

End Monotone.

(** The values of the four one-step rules on a nondecreasing integrand,
    against its integral. *)
Lemma monotone_bracket (f : R -> R) (N : Z) (a b : R)
    (pr : Riemann_integrable f a b) :
  (1 <= N)%Z ->
  a <= b ->
  (forall x y, a <= x -> x <= y -> y <= b -> f x <= f y) ->
  let l := riemann_formula f N a b 0 in
  let r := riemann_formula f N a b 1 in
  let m := riemann_formula f N a b 0.5 in
  let t := trapezoidal_pairwise f N a b in
  l <= RiemannInt pr <= r
  /\ l <= m <= r
  /\ l <= t <= r
  /\ r - l = (b - a) / IZR N * (f b - f a).
Proof.
  intros HN Hab Hmono l r m t.
  pose proof (right_left_difference f a b N HN) as Hd. fold l r in Hd.
  pose proof (trapezoidal_pairwise_mean f a b N) as Ht. fold l r t in Ht.
  pose proof (riemann_formula_left f a b N) as El. fold l in El.
  pose proof (riemann_formula_right f a b N) as Er. fold r in Er.
  destruct (integral_between_partial_sums f a b N HN Hab Hmono
              (Z.to_nat N) (le_n _) b pr (eq_sym (point_last a b N HN)))
    as [Il Ir].
  rewrite <- El in Il. rewrite <- Er in Ir.
  pose proof (step_nonneg a b N HN Hab) as Hs.
  assert (Hlm : l <= m).
  { rewrite El. unfold m, riemann_formula.
    apply Rmult_le_compat_l; [exact Hs|].
    apply Rsum_le. intros i Hi.
    apply (mid_sample_between f a b N HN Hab Hmono i Hi). }
  assert (Hmr : m <= r).
  { rewrite Er. unfold m, riemann_formula.
    apply Rmult_le_compat_l; [exact Hs|].
    apply Rsum_le. intros i Hi.
    apply (mid_sample_between f a b N HN Hab Hmono i Hi). }
  repeat split; lra.
Qed.

(** X18: for an integrand that is nondecreasing on [[a, b]], the left Riemann
    sum is a lower bound and the right Riemann sum an upper bound of the
    integral, of the middle Riemann sum and of the trapezoidal value, and
    the two bounds are [(b - a) (f b - f a) / N] apart: each of the four
    values is within that distance of the integral. *)
Theorem monotone_integrand_bracket (f : R -> R) (N : Z) (a b : R)
    (pr : Riemann_integrable f a b) :
  (1 <= N)%Z ->
  a <= b ->
  (forall x y, a <= x -> x <= y -> y <= b -> f x <= f y) ->
  exists l r m t : R,
    returns (RiemannSum f N a b "left") l
    /\ returns (RiemannSum f N a b "right") r
    /\ returns (RiemannSum f N a b "mid") m
    /\ returns (trapezoidal f N a b) t
    /\ l <= RiemannInt pr <= r
    /\ l <= m <= r
    /\ l <= t <= r
    /\ r - l = (b - a) / IZR N * (f b - f a)
    /\ Rabs (l - RiemannInt pr) <= (b - a) / IZR N * (f b - f a)
    /\ Rabs (r - RiemannInt pr) <= (b - a) / IZR N * (f b - f a)
    /\ Rabs (m - RiemannInt pr) <= (b - a) / IZR N * (f b - f a)
    /\ Rabs (t - RiemannInt pr) <= (b - a) / IZR N * (f b - f a).
Proof.
  intros HN Hab Hmono.
  destruct (monotone_bracket f N a b pr HN Hab Hmono)
    as (HI & Hm & Ht & Hd).
  exists (riemann_formula f N a b 0), (riemann_formula f N a b 1),
    (riemann_formula f N a b 0.5), (trapezoidal_pairwise f N a b).
  unfold returns.
  rewrite !RiemannSum_value, trapezoidal_value by lia.
  rewrite <- Hd.
  repeat split; try lra; apply Rabs_le; lra.
Qed.

Lemma monotone_integrand_bracket_witness :
  (1 <= 4)%Z
  /\ 0 <= 1
  /\ (forall x y, 0 <= x -> x <= y -> y <= 1 -> affine 1 2 x <= affine 1 2 y)
  /\ exists (pr : Riemann_integrable (affine 1 2) 0 1) (l r m t : R),
       returns (RiemannSum (affine 1 2) 4 0 1 "left") l
       /\ returns (RiemannSum (affine 1 2) 4 0 1 "right") r
       /\ returns (RiemannSum (affine 1 2) 4 0 1 "mid") m
       /\ returns (trapezoidal (affine 1 2) 4 0 1) t
       /\ l <= RiemannInt pr <= r
       /\ l <= m <= r
       /\ l <= t <= r
       /\ r - l = (1 - 0) / IZR 4 * (affine 1 2 1 - affine 1 2 0)
       /\ Rabs (l - RiemannInt pr)
          <= (1 - 0) / IZR 4 * (affine 1 2 1 - affine 1 2 0)
       /\ Rabs (r - RiemannInt pr)
          <= (1 - 0) / IZR 4 * (affine 1 2 1 - affine 1 2 0)
       /\ Rabs (m - RiemannInt pr)
          <= (1 - 0) / IZR 4 * (affine 1 2 1 - affine 1 2 0)
       /\ Rabs (t - RiemannInt pr)
          <= (1 - 0) / IZR 4 * (affine 1 2 1 - affine 1 2 0).
Proof.
  assert (H01 : 0 <= 1) by lra.
  assert (Hm : forall x y, 0 <= x -> x <= y -> y <= 1 ->
                 affine 1 2 x <= affine 1 2 y)
    by (intros x y _ Hxy _; unfold affine; lra).
  split; [lia|]. split; [exact H01|]. split; [exact Hm|].
  exists (continuity_implies_RiemannInt H01
            (fun x _ => affine_continuity 1 2 x)).
  apply monotone_integrand_bracket; [lia | exact H01 | exact Hm].
Defined.

(** ** The convergence experiments of the notebook *)

Section Errors.

Lemma abs_error_returns (r : result pyfloat) (v I : R) :
  returns r v -> abs_error r I = Ok (Fin (Rabs (v - I))).
Proof. unfold returns. intros ->. reflexivity. Qed.

(** A rule that returns within [B N] of [I] for each count of the list
    yields a list of errors below the [B N]. *)
Lemma errors_bounded (rule : Z -> result pyfloat) (I : R) (B : Z -> R)
    (counts : list Z) :
  Forall (fun N => exists v, returns (rule N) v /\ Rabs (v - I) <= B N)
    counts ->
  exists es : list pyfloat,
    errors rule I counts = Ok es
    /\ Forall2 (error_below B) counts es.
Proof.
  induction 1 as [|N counts (v & Hv & Hb) _ (es & Hes & Hall)].
  - exists []. split; [reflexivity | constructor].
  - exists (Fin (Rabs (v - I)) :: es). split.
    + cbn [errors]. rewrite (abs_error_returns _ _ _ Hv), Hes. reflexivity.
    + constructor; [|exact Hall].
      exists (Rabs (v - I)). split; [reflexivity|].
      split; [apply Rabs_pos | exact Hb].
Qed.

Lemma exp_nondecreasing (x y : R) : x <= y -> exp x <= exp y.
Proof.
  intros [Hlt | ->]; [left; now apply exp_increasing | right; reflexivity].
Qed.

Lemma exp_integrable (a b : R) : a <= b -> Riemann_integrable exp a b.
Proof.
  intros Hab. apply continuity_implies_RiemannInt; [exact Hab|].
  intros x _. apply derivable_continuous_pt, derivable_pt_exp.
Qed.

Lemma exp_integral (a b : R) (pr : Riemann_integrable exp a b) :
  a <= b -> RiemannInt pr = exp b - exp a.
Proof.
  intros Hab. apply RiemannInt_antiderivative; [exact Hab | |].
  - intros x _. apply derivable_continuous_pt, derivable_pt_exp.
  - split; [|exact Hab]. intros x _.
    exists (derivable_pt_exp x). symmetry. apply derive_pt_exp.
Qed.

Lemma half_turn_range (x : R) :
  0 <= x <= 1 -> - (PI / 2) <= x * PI / 2 <= PI / 2.
Proof. intros Hx. pose proof PI_RGT_0. split; nra. Qed.

Lemma g_nondecreasing (x y : R) :
  0 <= x -> x <= y -> y <= 1 -> Notebook.g x <= Notebook.g y.
Proof.
  intros H0 [Hlt | ->] H1; [|right; reflexivity].
  left. unfold Notebook.g.
  destruct (half_turn_range x ltac:(lra)).
  destruct (half_turn_range y ltac:(lra)).
  apply sin_increasing_1; try assumption.
  pose proof PI_RGT_0. nra.
Qed.

Lemma g_continuity : continuity Notebook.g.
Proof. unfold Notebook.g. reg. Qed.

Lemma g_prim_derivable : derivable (fun x => - (2 / PI) * cos (x * PI / 2)).
Proof. reg. Qed.

Lemma g_prim_derive (x : R) :
  derive_pt (fun x => - (2 / PI) * cos (x * PI / 2)) x (g_prim_derivable x)
  = Notebook.g x.
Proof. unfold Notebook.g. reg. unfold Rdiv. field. apply PI_neq0. Qed.

Lemma g_integral (pr : Riemann_integrable Notebook.g 0 1) :
  RiemannInt pr = 2 / PI.
Proof.
  rewrite (RiemannInt_antiderivative Notebook.g
             (fun x => - (2 / PI) * cos (x * PI / 2)) 0 1 pr).
  - replace (1 * PI / 2) with (PI / 2) by field.
    replace (0 * PI / 2) with 0 by field.
    rewrite cos_PI2, cos_0. field. apply PI_neq0.
  - lra.
  - intros x _. apply g_continuity.
  - split; [|lra]. intros x _.
    exists (g_prim_derivable x). symmetry. apply g_prim_derive.
Qed.

End Errors.

Section MonotoneErrors.

Variable f : R -> R.
Variables a b : R.
Variable pr : Riemann_integrable f a b.
Hypothesis Hab : a <= b.
Hypothesis Hmono : forall x y, a <= x -> x <= y -> y <= b -> f x <= f y.

Lemma monotone_riemann_call (N : Z) (c : ascii) (t : string) :
  (1 <= N)%Z ->
  exists v : R,
    returns (RiemannSum f N a b (String c t)) v
    /\ Rabs (v - RiemannInt pr) <= (b - a) / IZR N * (f b - f a).
Proof.
  intros HN.
  destruct (monotone_bracket f N a b pr HN Hab Hmono)
    as (HI & Hm & _ & Hd).
  exists (riemann_formula f N a b (kind_offset c)).
  split; [apply RiemannSum_value; lia|].
  rewrite <- Hd. unfold kind_offset.
  destruct (Ascii.eqb c "l"); [|destruct (Ascii.eqb c "r")];
    apply Rabs_le; lra.
Qed.

Lemma monotone_trapezoidal_call (N : Z) :
  (1 <= N)%Z ->
  exists v : R,
    returns (trapezoidal f N a b) v
    /\ Rabs (v - RiemannInt pr) <= (b - a) / IZR N * (f b - f a).
Proof.
  intros HN.
  destruct (monotone_bracket f N a b pr HN Hab Hmono)
    as (HI & _ & Ht & Hd).
  exists (trapezoidal_pairwise f N a b).
  split; [now apply trapezoidal_value|].
  rewrite <- Hd. apply Rabs_le; lra.
Qed.

End MonotoneErrors.

(** X19: the error lists of the experiment on [f(x) = exp(x)] over [[0, 1]],
    against [I = exp(1) - 1]: for subdivision counts that are all at least
    1, the three comprehensions (kinds ['l'], ['m'], ['r']) return, and the
    error recorded for a count [N] is at most [(exp(1) - 1) / N]: the
    Riemann sums converge to [I] at least at first order. *)
Theorem exp_error_lists (counts : list Z) :
  Forall (fun N => (1 <= N)%Z) counts ->
  exists err_l err_m err_r : list pyfloat,
    errors (fun N => RiemannSum Notebook.f N 0 1 "l") (exp 1 - 1) counts
    = Ok err_l
    /\ errors (fun N => RiemannSum Notebook.f N 0 1 "m") (exp 1 - 1) counts
       = Ok err_m
    /\ errors (fun N => RiemannSum Notebook.f N 0 1 "r") (exp 1 - 1) counts
       = Ok err_r
    /\ Forall2 (error_below (fun N => (exp 1 - 1) / IZR N)) counts err_l
    /\ Forall2 (error_below (fun N => (exp 1 - 1) / IZR N)) counts err_m
    /\ Forall2 (error_below (fun N => (exp 1 - 1) / IZR N)) counts err_r.
Proof.
  intros Hc. set (I := exp 1 - 1).
  assert (H01 : 0 <= 1) by lra.
  pose (pr := exp_integrable 0 1 H01).
  assert (Hcall : forall (c : ascii) (t : string),
             Forall (fun N => exists v,
                       returns (RiemannSum Notebook.f N 0 1 (String c t)) v
                       /\ Rabs (v - I) <= (exp 1 - 1) / IZR N) counts).
  { intros c t. eapply Forall_impl; [|exact Hc].
    intros N HN. cbv beta in HN.
    destruct (monotone_riemann_call exp 0 1 pr H01
                (fun x y _ Hxy _ => exp_nondecreasing x y Hxy) N c t HN)
      as (v & Hv & Hb).
    exists v. split; [exact Hv|].
    rewrite (exp_integral 0 1 pr H01), exp_0 in Hb. unfold I.
    replace ((exp 1 - 1) / IZR N) with ((1 - 0) / IZR N * (exp 1 - 1))
      by (field; apply not_0_IZR; lia).
    exact Hb. }
  destruct (errors_bounded _ I _ counts (Hcall "l"%char EmptyString))
    as (el & Hel & Fl).
  destruct (errors_bounded _ I _ counts (Hcall "m"%char EmptyString))
    as (em & Hem & Fm).
  destruct (errors_bounded _ I _ counts (Hcall "r"%char EmptyString))
    as (er & Her & Fr).
  exists el, em, er. repeat split; assumption.
Qed.

Lemma exp_error_lists_witness :
  Forall (fun N => (1 <= N)%Z) Notebook.Ns
  /\ exists err_l err_m err_r : list pyfloat,
       errors (fun N => RiemannSum Notebook.f N 0 1 "l") (exp 1 - 1)
         Notebook.Ns = Ok err_l
       /\ errors (fun N => RiemannSum Notebook.f N 0 1 "m") (exp 1 - 1)
            Notebook.Ns = Ok err_m
       /\ errors (fun N => RiemannSum Notebook.f N 0 1 "r") (exp 1 - 1)
            Notebook.Ns = Ok err_r
       /\ Forall2 (error_below (fun N => (exp 1 - 1) / IZR N))
            Notebook.Ns err_l
       /\ Forall2 (error_below (fun N => (exp 1 - 1) / IZR N))
            Notebook.Ns err_m
       /\ Forall2 (error_below (fun N => (exp 1 - 1) / IZR N))
            Notebook.Ns err_r.
Proof.
  assert (H : Forall (fun N => (1 <= N)%Z) Notebook.Ns).
  { unfold Notebook.Ns. repeat (apply Forall_cons; [lia|]). apply Forall_nil. }
  split; [exact H | apply (exp_error_lists Notebook.Ns H)].
Defined.

(** X20: the error lists of the experiment on [g(x) = sin(pi x / 2)] over
    [[0, 1]], against [I = 2 / pi]: for subdivision counts that are all at
    least 1, the comprehensions over the left, middle and right Riemann sums
    and over the trapezoidal rule return, and the error recorded for a count
    [N] is at most [1 / N]. *)
Theorem sin_error_lists (counts : list Z) :
  Forall (fun N => (1 <= N)%Z) counts ->
  exists err_l err_m err_r err_t : list pyfloat,
    errors (fun N => RiemannSum Notebook.g N 0 1 "l") (2 / PI) counts
    = Ok err_l
    /\ errors (fun N => RiemannSum Notebook.g N 0 1 "m") (2 / PI) counts
       = Ok err_m
    /\ errors (fun N => RiemannSum Notebook.g N 0 1 "r") (2 / PI) counts
       = Ok err_r
    /\ errors (fun N => trapezoidal Notebook.g N 0 1) (2 / PI) counts
       = Ok err_t
    /\ Forall2 (error_below (fun N => 1 / IZR N)) counts err_l
    /\ Forall2 (error_below (fun N => 1 / IZR N)) counts err_m
    /\ Forall2 (error_below (fun N => 1 / IZR N)) counts err_r
    /\ Forall2 (error_below (fun N => 1 / IZR N)) counts err_t.
Proof.
  intros Hc. set (I := 2 / PI).
  assert (H01 : 0 <= 1) by lra.
  pose (pr := continuity_implies_RiemannInt H01
                (fun x _ => g_continuity x)).
  assert (Hg1 : Notebook.g 1 - Notebook.g 0 = 1).
  { unfold Notebook.g.
    replace (1 * PI / 2) with (PI / 2) by field.
    replace (0 * PI / 2) with 0 by field.
    rewrite sin_PI2, sin_0. ring. }
  assert (Hbound : forall N v, (1 <= N)%Z ->
             Rabs (v - RiemannInt pr)
             <= (1 - 0) / IZR N * (Notebook.g 1 - Notebook.g 0) ->
             Rabs (v - I) <= 1 / IZR N).
  { intros N v HN Hb. rewrite (g_integral pr), Hg1 in Hb. unfold I.
    replace (1 / IZR N) with ((1 - 0) / IZR N * 1)
      by (field; apply not_0_IZR; lia).
    exact Hb. }
  assert (Hcall : forall (c : ascii) (t : string),
             Forall (fun N => exists v,
                       returns (RiemannSum Notebook.g N 0 1 (String c t)) v
                       /\ Rabs (v - I) <= 1 / IZR N) counts).
  { intros c t. eapply Forall_impl; [|exact Hc].
    intros N HN. cbv beta in HN.
    destruct (monotone_riemann_call Notebook.g 0 1 pr H01
                g_nondecreasing N c t HN) as (v & Hv & Hb).
    exists v. split; [exact Hv | now apply (Hbound N)]. }
  assert (Htrap : Forall (fun N => exists v,
                       returns (trapezoidal Notebook.g N 0 1) v
                       /\ Rabs (v - I) <= 1 / IZR N) counts).
  { eapply Forall_impl; [|exact Hc].
    intros N HN. cbv beta in HN.
    destruct (monotone_trapezoidal_call Notebook.g 0 1 pr H01
                g_nondecreasing N HN) as (v & Hv & Hb).
    exists v. split; [exact Hv | now apply (Hbound N)]. }
  destruct (errors_bounded _ I _ counts (Hcall "l"%char EmptyString))
    as (el & Hel & Fl).
  destruct (errors_bounded _ I _ counts (Hcall "m"%char EmptyString))
    as (em & Hem & Fm).
  destruct (errors_bounded _ I _ counts (Hcall "r"%char EmptyString))
    as (er & Her & Fr).
  destruct (errors_bounded _ I _ counts Htrap) as (et & Het & Ft).
  exists el, em, er, et. repeat split; assumption.
Qed.

Lemma sin_error_lists_witness :
  Forall (fun N => (1 <= N)%Z) Notebook.Ns
  /\ exists err_l err_m err_r err_t : list pyfloat,
       errors (fun N => RiemannSum Notebook.g N 0 1 "l") (2 / PI)
         Notebook.Ns = Ok err_l
       /\ errors (fun N => RiemannSum Notebook.g N 0 1 "m") (2 / PI)
            Notebook.Ns = Ok err_m
       /\ errors (fun N => RiemannSum Notebook.g N 0 1 "r") (2 / PI)
            Notebook.Ns = Ok err_r
       /\ errors (fun N => trapezoidal Notebook.g N 0 1) (2 / PI)
            Notebook.Ns = Ok err_t
       /\ Forall2 (error_below (fun N => 1 / IZR N)) Notebook.Ns err_l
       /\ Forall2 (error_below (fun N => 1 / IZR N)) Notebook.Ns err_m
       /\ Forall2 (error_below (fun N => 1 / IZR N)) Notebook.Ns err_r
       /\ Forall2 (error_below (fun N => 1 / IZR N)) Notebook.Ns err_t.
Proof.
  assert (H : Forall (fun N => (1 <= N)%Z) Notebook.Ns).
  { unfold Notebook.Ns. repeat (apply Forall_cons; [lia|]). apply Forall_nil. }
  split; [exact H | apply (sin_error_lists Notebook.Ns H)].
Defined.

(** ** The inline computations of the notebook *)

Section Inline.

Variable f : R -> R.

Lemma add_map {A : Type} (u v : A -> R) (l : list A) :
  Np.add (map u l) (map v l) = map (fun i => u i + v i) l.
Proof.
  unfold Np.add. induction l as [|x l IH]; simpl; [reflexivity|].
  now rewrite IH.
Qed.

Lemma inline_sum_value (N : Z) (o : R) (sample : R -> Z -> R) :
  N <> 0%Z ->
  (forall D i, sample D (Z.of_nat i) = 0 + (INR i + o) * D) ->
  (D <- truediv 1 N ;;
   Ok (Fin (Np.sum (map (fun y => y * D)
                      (map f (map (fun i => sample D i) (range N)))))))
  = Ok (Fin (riemann_formula f N 0 1 o)).
Proof.
  intros HN Hs. unfold truediv.
  replace (N =? 0)%Z with false by (symmetry; apply Z.eqb_neq; exact HN).
  cbn [bind]. do 2 f_equal.
  assert (HD : 1 / IZR N = step 0 1 N)
    by (unfold step; replace (1 - 0) with 1 by ring; reflexivity).
  rewrite HD. unfold range, riemann_formula.
  rewrite !map_map, sum_map_seq, <- Rsum_scal.
  apply Rsum_ext. intros i _. rewrite Hs. ring.
Qed.

End Inline.

(** X21: the Riemann sums that the notebook computes inline before it defines
    [RiemannSum] are the calls [RiemannSum(f, N, 0, 1, kind)]: for every
    count [N] the outcomes agree, also the division by zero at [N = 0]. *)
Theorem inline_sums_agree (f : R -> R) (N : Z) :
  Notebook.S_left f N = RiemannSum f N 0 1 "left"
  /\ Notebook.S_right f N = RiemannSum f N 0 1 "right"
  /\ Notebook.S_mid f N = RiemannSum f N 0 1 "mid".
Proof.
  destruct (Z.eq_dec N 0) as [->|HN]; [repeat split|].
  rewrite !RiemannSum_value by exact HN.
  change (kind_offset "l") with 0.
  change (kind_offset "r") with 1.
  change (kind_offset "m") with 0.5.
  unfold Notebook.S_left, Notebook.S_right, Notebook.S_mid.
  repeat split.
  - apply (inline_sum_value f N 0 (fun D i => D * IZR i) HN).
    intros D i. rewrite <- INR_IZR_INZ. ring.
  - apply (inline_sum_value f N 1 (fun D i => D * IZR (i + 1)) HN).
    intros D i. rewrite plus_IZR, <- INR_IZR_INZ. ring.
  - apply (inline_sum_value f N 0.5 (fun D i => D * (IZR i + 0.5)) HN).
    intros D i. rewrite <- INR_IZR_INZ. ring.
Qed.

(** X22: the midpoints [0.5 * (X[:-1] + X[1:])] of the grid of [np.linspace] are
    the sample points [D * (i + 0.5) + a] of the middle Riemann sum, which
    is [D] times the sum of the integrand over these midpoints. *)
Theorem grid_midpoints (f : R -> R) (N : Z) (a b : R) :
  (1 <= N)%Z ->
  exists (X : list R) (D : R),
    Np.linspace a b (N + 1) = Ok (X, Fin D)
    /\ Notebook.midpoints X = map (fun i => D * (IZR i + 0.5) + a) (range N)
    /\ returns (RiemannSum f N a b "mid")
         (Np.sum (map f (Notebook.midpoints X)) * D).
Proof.
  intros HN. exists (partition a b N), (step a b N).
  assert (Hmid : Notebook.midpoints (partition a b N)
                 = map (fun i => step a b N * (IZR i + 0.5) + a) (range N)).
  { unfold Notebook.midpoints.
    rewrite partition_tl, partition_removelast, add_map.
    unfold range. rewrite !map_map. apply map_ext. intros i.
    unfold point. rewrite S_INR, <- INR_IZR_INZ, half_literal. field. }
  split; [now apply linspace_partition|]. split; [exact Hmid|].
  unfold returns. rewrite RiemannSum_value by lia.
  do 2 f_equal. rewrite Hmid. unfold riemann_formula, range.
  rewrite !map_map, sum_map_seq, Rmult_comm. f_equal.
  apply Rsum_ext. intros i _. f_equal.
  change (kind_offset "m") with 0.5. rewrite <- INR_IZR_INZ. ring.
Qed.

Lemma grid_midpoints_witness :
  (1 <= 8)%Z
  /\ exists (X : list R) (D : R),
       Np.linspace 0 1 (8 + 1) = Ok (X, Fin D)
       /\ Notebook.midpoints X
          = map (fun i => D * (IZR i + 0.5) + 0) (range 8)
       /\ returns (RiemannSum (fun x => x * x) 8 0 1 "mid")
            (Np.sum (map (fun x => x * x) (Notebook.midpoints X)) * D).
Proof.
  split; [lia | apply (grid_midpoints (fun x => x * x) 8 0 1); lia].
Defined.
